(** * Hybrid retrieval of the chatbot: dense similarity fused with BM25

    A shallow embedding of [src/hybrid_search.py] (class [HybridSearch]) and of
    the part of [src/korean_vector_store.py] it calls
    ([KoreanVectorStore.similarity_search]), followed by the properties of the
    retrieval engine.  The rest of the store ([preprocess_text],
    [enhance_query], [add_documents], [search_with_context],
    [get_statistics]), the tokenizer of the engine and the caller
    ([GeminiRAGPipeline.query] of [src/gemini_rag_pipeline.py]) follow in
    modules of their own.

    Conventions of the embedding.
    - Python [float] scores are exact rationals ([Q]); rounding of binary64 is
      not modelled.  Scores are compared up to [Qeq], as Python compares
      numbers by value.
    - A raised exception is the [Raise] branch of the [result] monad.
    - [dict]s whose iteration order matters ([doc_scores]) are association
      lists in insertion order; metadata dictionaries are [gmap]s.
    - A Python [str] is held as the bytes of its UTF-8 encoding, so the
      Korean literals of the source read as in the source.  Substring tests
      and replacements agree on bytes and on characters; lengths and slices
      ([len(text)], [text[:100]]) count characters (code points), which
      [char_length] and [take_chars] do on the encoding.  Counts ([k]) are
      natural numbers.
    - What lives outside the repository is a parameter: the Chroma collection
      (its [get] and [query] answers), the fitted [BM25Okapi] ranker,
      [numpy.argsort], and the regular-expression tokenizer. *)

From stdpp Require Import base option list gmap strings sorting pretty.
From Stdlib Require Import QArith Lqa.

Close Scope Q_scope.
#[local] Set Warnings "-clear-no-such-hyp".

(** ** Python values, exceptions and a few primitives *)

Inductive exn :=
  | ValueError
  | IndexError
  | TypeError
  | ZeroDivisionError
  | ExternalError.

Inductive result (A : Type) :=
  | Ok (a : A)
  | Raise (e : exn).
Arguments Ok {A} a.
Arguments Raise {A} e.

Global Instance result_ret : MRet result := λ A a, Ok a.
Global Instance result_bind : MBind result :=
  λ A B f m, match m with Ok a => f a | Raise e => Raise e end.

Global Instance Qlt_decision : RelDecision Qlt :=
  λ x y, match Qlt_le_dec x y with
         | left H => left H
         | right H => right (Qle_not_lt _ _ H)
         end.
Global Instance Qeq_decision : RelDecision Qeq := Qeq_dec.

(** Metadata values: [None], a number ([int], [float] and [bool] compare by
    value in Python) or a string. *)
Inductive pyval :=
  | PNone
  | PNum (q : Q)
  | PStr (s : string).

(** Python's [==] and [!=] on these values. *)
Definition py_eq (a b : pyval) : bool :=
  match a, b with
  | PNone, PNone => true
  | PNum x, PNum y => Qeq_bool x y
  | PStr s, PStr t => bool_decide (s = t)
  | _, _ => false
  end.
Definition py_ne (a b : pyval) : bool := negb (py_eq a b).

(** [1 + v]: only numbers can be added to a number. *)
Definition number_of (v : pyval) : result Q :=
  match v with
  | PNum q => Ok q
  | _ => Raise TypeError
  end.

(** [a / b] on Python floats. *)
Definition true_div (a b : Q) : result Q :=
  if decide (b == 0)%Q then Raise ZeroDivisionError else Ok (a / b)%Q.

(** [l[i]] for a non-negative index. *)
Definition index {A} (l : list A) (i : nat) : result A :=
  match l !! i with
  | Some x => Ok x
  | None => Raise IndexError
  end.

(** A character (code point) of a text starts at every byte of its UTF-8
    encoding that is not a continuation byte [10xxxxxx]. *)
Definition is_continuation (b : Ascii.ascii) : bool :=
  match b with
  | Ascii.Ascii _ _ _ _ _ _ b6 b7 => b7 && negb b6
  end.

(** [len(text)]: the number of characters. *)
Fixpoint char_length (text : string) : nat :=
  match text with
  | EmptyString => 0
  | String b rest =>
      (if is_continuation b then 0 else 1) + char_length rest
  end.

(** [text[:n]]: the bytes of the first [n] characters. *)
Fixpoint take_chars (n : nat) (text : string) : string :=
  match text with
  | EmptyString => EmptyString
  | String b rest =>
      if is_continuation b then String b (take_chars n rest)
      else match n with
           | 0 => EmptyString
           | S n' => String b (take_chars n' rest)
           end
  end.

(** [langchain.schema.Document]. *)
Record Document := {
  page_content : string;
  metadata : gmap string pyval
}.

(** [d.get(key)] and [d.get(key, dflt)] on a metadata dictionary. *)
Definition dict_get (d : gmap string pyval) (key : string) : pyval :=
  default PNone (d !! key).
Definition dict_get_default (d : gmap string pyval) (key : string)
    (dflt : pyval) : pyval :=
  default dflt (d !! key).

(** A stable sort: [x] travels past the elements that must precede it and
    stops at the first one that need not, so elements that are not ordered by
    [prec] keep their relative order.  [list.sort(key=..., reverse=True)] is
    this sort with [prec y x] when the key of [x] is smaller than that of
    [y]. *)
Section StableSort.
Context {A : Type} (prec : A → A → bool).

Fixpoint stable_insert (x : A) (l : list A) : list A :=
  match l with
  | [] => [x]
  | y :: l' => if prec y x then y :: stable_insert x l' else x :: y :: l'
  end.

Definition stable_sort (l : list A) : list A :=
  foldr stable_insert [] l.
End StableSort.

(** ** The document store *)
Module KoreanVectorStore.

(** The answer of [collection.get()]. *)
Record GetResult := {
  g_ids : list string;
  g_documents : list string;
  g_metadatas : list (gmap string pyval)
}.

(** The answer of [collection.query(...)] for one query embedding; the
    ['distances'] field may be missing. *)
Record QueryResult := {
  q_documents : list (list string);
  q_metadatas : list (list (gmap string pyval));
  q_distances : option (list (list Q))
}.

(** The store as the retrieval engine sees it.  [collection_query query k]
    stands for [collection.query(query_embeddings=[embed(enhance(query))],
    n_results=k, where=None)]; a failure of the embedding model or of the
    database is a [Raise]. *)
Record t := {
  collection_get : option GetResult;
  collection_query : string → nat → result QueryResult
}.

(** The body of the [for ... in zip(docs, metadatas, distances)] loop. *)
Fixpoint zip_documents (docs : list string)
    (metas : list (gmap string pyval)) (dists : list Q) : list Document :=
  match docs, metas, dists with
  | doc :: docs', md :: metas', distance :: dists' =>
      {| page_content := doc;
         metadata := <["distance" := PNum distance]> md |}
      :: zip_documents docs' metas' dists'
  | _, _, _ => []
  end.

Definition similarity_search (self : t) (query : string) (k : nat)
    : result (list Document) :=
  results ← collection_query self query k;
  match q_documents results with
  | [] => Ok []
  | [] :: _ => Ok []
  | docs0 :: _ =>
      metas0 ← index (q_metadatas results) 0;
      dists0 ← match q_distances results with
               | Some ds => index ds 0
               | None => Ok (replicate (length docs0) 0%Q)
               end;
      Ok (zip_documents docs0 metas0 dists0)
  end.

(** What Chroma promises about an answer: every field has one row per query
    embedding, and distances are not negative. *)
Definition well_formed (r : QueryResult) : Prop :=
  length (q_metadatas r) = length (q_documents r) ∧
  ∀ ds, q_distances r = Some ds →
    length ds = length (q_documents r) ∧
    ∀ row x, row ∈ ds → x ∈ row → (0 <= x)%Q.

End KoreanVectorStore.

(** ** The retrieval engine *)
Module HybridSearch.

(** A fitted [BM25Okapi]: [get_scores] gives one raw score per corpus
    document. *)
Record Bm25 := { get_scores : list string → list Q }.

Record t := {
  vector_store : KoreanVectorStore.t;
  dense_weight : Q;
  sparse_weight : Q;
  documents : list string;
  metadatas : list (gmap string pyval);
  ids : list string;
  bm25 : Bm25
}.

(** One value of the [doc_scores] dictionary. *)
Record entry := {
  doc : Document;
  dense_score : Q;
  sparse_score : Q
}.

(** [doc.page_content[:100]]. *)
Definition doc_key (d : Document) : string :=
  take_chars 100 (page_content d).

(** *** The [doc_scores] dictionary, in insertion order *)

Definition dict_has (key : string) (d : list (string * entry)) : bool :=
  bool_decide (key ∈ d.*1).

(** [if key not in d: d[key] = e] *)
Definition dict_setdefault (key : string) (e : entry)
    (d : list (string * entry)) : list (string * entry) :=
  if dict_has key d then d else d ++ [(key, e)].

(** [d[key][field] = value], written as a function on the entry. *)
Fixpoint dict_update (f : entry → entry) (key : string)
    (d : list (string * entry)) : list (string * entry) :=
  match d with
  | [] => []
  | (k, e) :: d' =>
      if decide (k = key) then (k, f e) :: d'
      else (k, e) :: dict_update f key d'
  end.

Definition new_entry (d : Document) : entry :=
  {| doc := d; dense_score := 0; sparse_score := 0 |}.
Definition set_dense (score : Q) (e : entry) : entry :=
  {| doc := doc e; dense_score := score; sparse_score := sparse_score e |}.
Definition set_sparse (score : Q) (e : entry) : entry :=
  {| doc := doc e; dense_score := dense_score e; sparse_score := score |}.

Definition dense_step (d : list (string * entry)) (r : Document * Q)
    : list (string * entry) :=
  let key := doc_key r.1 in
  dict_update (set_dense r.2) key (dict_setdefault key (new_entry r.1) d).

Definition sparse_step (d : list (string * entry)) (r : Document * Q)
    : list (string * entry) :=
  let key := doc_key r.1 in
  dict_update (set_sparse r.2) key (dict_setdefault key (new_entry r.1) d).

(** The dictionary after both loops of [_combine_results]. *)
Definition doc_scores (dense_results sparse_results : list (Document * Q))
    : list (string * entry) :=
  foldl sparse_step (foldl dense_step [] dense_results) sparse_results.

Section Engine.
(** [_tokenize]: lower-casing, [re.findall] and stop-word removal. *)
Variable _tokenize : string → list string.
(** [BM25Okapi(tokenized_docs)]. *)
Variable BM25Okapi : list (list string) → result Bm25.
(** [np.argsort]. *)
Variable argsort : list Q → list nat.

Definition _build_bm25_index (vector_store : KoreanVectorStore.t)
    (dense_weight sparse_weight : Q) : result t :=
  match KoreanVectorStore.collection_get vector_store with
  | None => Raise ValueError
  | Some all_data =>
      match KoreanVectorStore.g_documents all_data with
      | [] => Raise ValueError
      | docs =>
          let tokenized_docs := map _tokenize docs in
          index_ ← BM25Okapi tokenized_docs;
          Ok {| vector_store := vector_store;
                dense_weight := dense_weight;
                sparse_weight := sparse_weight;
                documents := docs;
                metadatas := KoreanVectorStore.g_metadatas all_data;
                ids := KoreanVectorStore.g_ids all_data;
                bm25 := index_ |}
      end
  end.

Definition __init__ (vector_store : KoreanVectorStore.t)
    (dense_weight : Q) : result t :=
  _build_bm25_index vector_store dense_weight (1 - dense_weight)%Q.

(** [similarity = 1 / (1 + distance)] with
    [distance = doc.metadata.get('distance', 0)]. *)
Definition similarity (d : Document) : result Q :=
  distance ← number_of (dict_get_default (metadata d) "distance" (PNum 0));
  true_div 1 (1 + distance).

Definition dense_loop (docs : list Document)
    : result (list (Document * Q)) :=
  mapM (λ d, s ← similarity d; Ok (d, s)) docs.

Definition _dense_search (self : t) (query : string) (k : nat)
    : result (list (Document * Q)) :=
  docs ← KoreanVectorStore.similarity_search (vector_store self) query k;
  dense_loop docs.

(** The loop over [top_indices]. *)
Fixpoint sparse_loop (self : t) (scores : list Q) (top_indices : list nat)
    : result (list (Document * Q)) :=
  match top_indices with
  | [] => Ok []
  | idx :: rest =>
      s ← index scores idx;
      if decide (0 < s)%Q then
        text ← index (documents self) idx;
        md ← (if decide (idx < length (metadatas self))
              then index (metadatas self) idx else Ok ∅);
        let d := {| page_content := text; metadata := md |} in
        let normalized_score := (s / (s + 1))%Q in
        results ← sparse_loop self scores rest;
        Ok ((d, normalized_score) :: results)
      else sparse_loop self scores rest
  end.

Definition top_indices (scores : list Q) (k : nat) : list nat :=
  take k (reverse (argsort scores)).

Definition _sparse_search (self : t) (query : string) (k : nat)
    : result (list (Document * Q)) :=
  let query_tokens := _tokenize query in
  let scores := get_scores (bm25 self) query_tokens in
  sparse_loop self scores (top_indices scores k).

(** [final_scores] before it is sorted. *)
Definition final_scores (self : t)
    (dense_results sparse_results : list (Document * Q))
    : list (Document * Q) :=
  map (λ kv : string * entry,
         (doc kv.2,
          (dense_weight self * dense_score kv.2
           + sparse_weight self * sparse_score kv.2)%Q))
      (doc_scores dense_results sparse_results).

(** [final_scores.sort(key=lambda x: x[1], reverse=True)] *)
Definition by_score_desc (y x : Document * Q) : bool :=
  bool_decide (x.2 < y.2)%Q.

Definition ranked (self : t)
    (dense_results sparse_results : list (Document * Q))
    : list (Document * Q) :=
  stable_sort by_score_desc (final_scores self dense_results sparse_results).

Definition _combine_results (self : t)
    (dense_results sparse_results : list (Document * Q)) (k : nat)
    : list Document :=
  (take k (ranked self dense_results sparse_results)).*1.

Definition search (self : t) (query : string) (k : nat) (rerank : bool)
    : result (list Document) :=
  let k_candidates := if rerank then k * 3 else k in
  dense_results ← _dense_search self query k_candidates;
  sparse_results ← _sparse_search self query k_candidates;
  Ok (_combine_results self dense_results sparse_results k).

(** The inner loop of [search_with_filter]: [match] stays [True] unless a
    pair of the filter differs from the metadata. *)
Fixpoint filter_match (items : list (string * pyval)) (d : Document)
    : bool :=
  match items with
  | [] => true
  | (key, value) :: rest =>
      if py_ne (dict_get (metadata d) key) value then false
      else filter_match rest d
  end.

Fixpoint filter_loop (items : list (string * pyval))
    (all_results : list Document) : list Document :=
  match all_results with
  | [] => []
  | d :: rest =>
      if filter_match items d then d :: filter_loop items rest
      else filter_loop items rest
  end.

Definition search_with_filter (self : t) (query : string) (k : nat)
    (filter_dict : option (list (string * pyval)))
    : result (list Document) :=
  all_results ← search self query (k * 2) true;
  match filter_dict with
  | None | Some [] => Ok (take k all_results)
  | Some items => Ok (take k (filter_loop items all_results))
  end.

End Engine.
End HybridSearch.

(** ** Reading the fused table

    What [_combine_results] keeps for a key, said without the dictionary. *)
Module Fusion.
Import HybridSearch.

(** The keys of a candidate list, in order. *)
Definition candidate_keys (results : list (Document * Q)) : list string :=
  doc_key <$> results.*1.

(** The score of the last candidate of [results] that has key [key]. *)
Fixpoint last_score (key : string) (results : list (Document * Q))
    : option Q :=
  match results with
  | [] => None
  | r :: rest =>
      match last_score key rest with
      | Some s => Some s
      | None => if decide (doc_key r.1 = key) then Some r.2 else None
      end
  end.

(** The component that enters the combined score. *)
Definition component (key : string) (results : list (Document * Q)) : Q :=
  default 0%Q (last_score key results).

(** Keys in order of first appearance. *)
Definition add_key (ks : list string) (k : string) : list string :=
  if bool_decide (k ∈ ks) then ks else ks ++ [k].
Definition first_seen (ks : list string) : list string :=
  foldl add_key [] ks.

(** What the dictionary holds after the dense candidates [dense] and the
    sparse candidates [sparse] have been processed. *)
Definition table_inv (dense sparse : list (Document * Q))
    (T : list (string * entry)) : Prop :=
  T.*1 = first_seen (candidate_keys (dense ++ sparse)) ∧
  ∀ k e, (k, e) ∈ T →
    doc_key (doc e) = k ∧
    dense_score e = component k dense ∧
    sparse_score e = component k sparse ∧
    ((∃ s, (doc e, s) ∈ dense) ∨
     ((k ∉ candidate_keys dense) ∧ ∃ s, (doc e, s) ∈ sparse)).

(** What one kept result says about the index it comes from. *)
Definition kept (self : t) (scores : list Q) (idx : nat)
    (p : Document * Q) : Prop :=
  ∃ s, scores !! idx = Some s ∧ (0 < s)%Q ∧
       documents self !! idx = Some (page_content p.1) ∧
       metadata p.1 = default ∅ (metadatas self !! idx) ∧
       p.2 = (s / (s + 1))%Q ∧ (0 < p.2)%Q ∧ (p.2 < 1)%Q.

(** Descending by score: [a] may stand before [b]. *)
Definition score_ge (a b : Document * Q) : Prop := (b.2 <= a.2)%Q.

(** Follows the spec's words: the maximum score seen for [key], if any. *)
Fixpoint spec_max_score (key : string) (results : list (Document * Q))
    : option Q :=
  match results with
  | [] => None
  | r :: rest =>
      if decide (doc_key r.1 = key) then
        match spec_max_score key rest with
        | Some m => Some (if decide (m < r.2)%Q then r.2 else m)
        | None => Some r.2
        end
      else spec_max_score key rest
  end.

(** Follows the spec's words: [dense_weight * max dense + sparse_weight *
    max sparse], each maximum defaulting to 0. *)
Definition spec_combined (self : t)
    (dense_results sparse_results : list (Document * Q)) (key : string)
    : Q :=
  (dense_weight self * default 0 (spec_max_score key dense_results)
   + sparse_weight self * default 0 (spec_max_score key sparse_results))%Q.

(** The position of a chunk in the corpus snapshot (first chunk with that
    text). *)
Fixpoint position_of (text : string) (corpus : list string) : option nat :=
  match corpus with
  | [] => None
  | t :: rest =>
      if decide (t = text) then Some 0
      else S <$> position_of text rest
  end.

(** Follows the spec's words: the ranked pairs are in the order "score
    descending, ties broken by corpus insertion order". *)
Definition spec_before (corpus : list string) (a b : Document * Q) : Prop :=
  (b.2 < a.2)%Q ∨
  (a.2 == b.2)%Q ∧
  ∃ i j, position_of (page_content a.1) corpus = Some i ∧
         position_of (page_content b.1) corpus = Some j ∧ i < j.

(** Follows the spec's words: the number of corpus documents with positive
    sparse score for the query. *)
Definition spec_sparse_evidence (scores : list Q) : nat :=
  length (filter (λ s, 0 < s)%Q scores).
End Fusion.

(** ** Concrete collaborators for the examples *)
Module Fixture.
Import HybridSearch.

(** A tokenizer that keeps the text as one token. *)
Definition one_token (text : string) : list string := [text].

(** A ranker that answers every query with the same raw scores. *)
Definition table_ranker (scores : list Q) (_ : list (list string))
    : result Bm25 :=
  Ok {| get_scores := λ _, scores |}.

(** An [argsort] that is stable: ascending by score, equal scores by
    index. *)
Definition argsort_stable (scores : list Q) : list nat :=
  stable_sort (λ j i, bool_decide (nth j scores 0 < nth i scores 0)%Q)
              (seq 0 (length scores)).

(** A collection holding [corpus], whose nearest-neighbour answer to every
    query is the first [k] rows of [nearest]. *)
Definition collection (corpus : list (string * gmap string pyval))
    (nearest : list (string * gmap string pyval * Q))
    : KoreanVectorStore.t :=
  {| KoreanVectorStore.collection_get :=
       Some {| KoreanVectorStore.g_ids := [];
               KoreanVectorStore.g_documents := corpus.*1;
               KoreanVectorStore.g_metadatas := corpus.*2 |};
     KoreanVectorStore.collection_query := λ _ k,
       Ok {| KoreanVectorStore.q_documents := [(take k nearest).*1.*1];
             KoreanVectorStore.q_metadatas := [(take k nearest).*1.*2];
             KoreanVectorStore.q_distances := Some [(take k nearest).*2] |}
  |}.


(** An empty collection. *)
Definition empty_collection : KoreanVectorStore.t :=
  collection [] [].

(** An engine over a collection and a score table, as [__init__] builds
    it. *)
Definition engine (store : KoreanVectorStore.t) (scores : list Q)
    (dense_weight : Q) : result t :=
  __init__ one_token (table_ranker scores) store dense_weight.

(** A text of 100 characters, and two chunks that start with it. *)
Fixpoint chars (n : nat) : string :=
  match n with
  | 0 => EmptyString
  | S n' => "x" +:+ chars n'
  end.
Definition chunk_a : string := chars 100 +:+ " first".
Definition chunk_a' : string := chars 100 +:+ " second".
Definition chunk_b : string := "b".

Definition page (n : Z) : gmap string pyval :=
  {[ "page" := PNum (inject_Z n) ]}.
(** The engine that [__init__] builds over [collection corpus nearest] with
    the score table [scores]. *)
Definition engine_state (corpus : list (string * gmap string pyval))
    (nearest : list (string * gmap string pyval * Q))
    (scores : list Q) (dense_weight : Q) : t :=
  {| vector_store := collection corpus nearest;
     dense_weight := dense_weight;
     sparse_weight := (1 - dense_weight)%Q;
     documents := corpus.*1;
     metadatas := corpus.*2;
     ids := [];
     bm25 := {| get_scores := λ _, scores |} |}.

(** Three chunks; the first and the third share their first 100
    characters.  The store ranks them in corpus order, at distances 1/9,
    1/4 and 1. *)
Definition near_duplicates : list (string * gmap string pyval) :=
  [(chunk_a, page 1); (chunk_b, page 2); (chunk_a', page 3)].
Definition near_duplicates_ranking
    : list (string * gmap string pyval * Q) :=
  [(chunk_a, page 1, 1 # 9); (chunk_b, page 2, 1 # 4);
   (chunk_a', page 3, 1)]%Q.
Definition near_duplicates_engine (scores : list Q) (dense_weight : Q)
    : t :=
  engine_state near_duplicates near_duplicates_ranking scores dense_weight.

(** Two chunks; the store ranks the second (distance 1) before the first
    (distance 3), and only the first matches the query lexically, with raw
    BM25 score 1/3. *)
Definition two_chunks : list (string * gmap string pyval) :=
  [("a", page 1); ("b", page 2)].
Definition two_chunks_ranking : list (string * gmap string pyval * Q) :=
  [("b", page 2, 1); ("a", page 1, 3)]%Q.
Definition two_chunks_engine : t :=
  engine_state two_chunks two_chunks_ranking [1 # 3; 0]%Q (1 # 2)%Q.
End Fixture.

(** ** Text primitives of Python

    [sub in s] and [s.replace(old, new)] on [str].  The tables of the store
    below are written with the UTF-8 bytes of their characters; on well-formed
    UTF-8 both primitives give the same answer on bytes as on code points. *)
Module Text.

(** [s.startswith(p)]. *)
Fixpoint starts_with (p s : string) : bool :=
  match p, s with
  | EmptyString, _ => true
  | String a p', String b s' => bool_decide (a = b) && starts_with p' s'
  | String _ _, EmptyString => false
  end.

(** [sub in s]. *)
Fixpoint contains (sub s : string) : bool :=
  starts_with sub s ||
  match s with
  | EmptyString => false
  | String _ s' => contains sub s'
  end.

(** [s.replace(old, new)] for a non-empty [old]: occurrences are found from
    the left and do not overlap; [skip] counts the characters of a replaced
    occurrence that are still to be passed over. *)
Fixpoint replace_from (old new : string) (skip : nat) (s : string)
    : string :=
  match s with
  | EmptyString => EmptyString
  | String c s' =>
      match skip with
      | S n => replace_from old new n s'
      | 0 =>
          if starts_with old s
          then new +:+ replace_from old new (String.length old - 1) s'
          else String c (replace_from old new 0 s')
      end
  end.

(** With an empty [old], Python puts [new] before every character and at
    the end. *)
Fixpoint interleave (new s : string) : string :=
  match s with
  | EmptyString => new
  | String c s' => new +:+ String c (interleave new s')
  end.

Definition replace (old new s : string) : string :=
  match old with
  | EmptyString => interleave new s
  | String _ _ => replace_from old new 0 s
  end.

(** The characters of a text, for statements about subsequences. *)
Definition chars (s : string) : list Ascii.ascii :=
  String.list_ascii_of_string s.

(** [s.zfill(width)] for a string of digits: the padding of [f"{i:04d}"]. *)
Definition zfill (width : nat) (s : string) : string :=
  Nat.iter (width - String.length s) (String (Ascii.ascii_of_nat 48)) s.

(** [l[a:b]] for [0 <= a] and [0 <= b]. *)
Definition slice {A} (l : list A) (a b : nat) : list A :=
  take (b - a) (drop a l).

(** [range(0, stop, step)] for a positive [step]. *)
Definition range_step (stop step : nat) : list nat :=
  (λ j, j * step) <$> seq 0 ((stop + (step - 1)) / step).

(** The number that a string of decimal digits denotes. *)
Fixpoint digits_value_from (acc : N) (s : string) : N :=
  match s with
  | EmptyString => acc
  | String c s' =>
      digits_value_from (acc * 10 + (Ascii.N_of_ascii c - 48))%N s'
  end.
Definition digits_value (s : string) : N := digits_value_from 0 s.

End Text.

(** ** The store's text preparation: [preprocess_text], [enhance_query] *)
Module QueryText.
Import Text.

Definition abbreviation_map : list (string * string) :=
  [("DX", "DX(디바이스경험부문)");
   ("DS", "DS(디바이스솔루션부문)");
   ("CEO", "CEO(최고경영자)");
   ("ESG", "ESG(환경사회거버넌스)");
   ("SDGs", "SDGs(지속가능발전목표)");
   ("AWS", "AWS(국제수자원관리동맹)");
   ("TCFD", "TCFD(기후변화재무정보공개)");
   ("CPMS", "CPMS(컴플라이언스프로그램관리시스템)");
   ("RBA", "RBA(책임있는비즈니스연합)");
   ("Scope 1", "Scope 1(직접배출)");
   ("Scope 2", "Scope 2(간접배출)");
   ("Scope 3", "Scope 3(기타간접배출)");
   ("AI", "AI(인공지능)");
   ("SW", "SW(소프트웨어)");
   ("R&D", "R&D(연구개발)");
   ("M&A", "M&A(인수합병)");
   ("NPU", "NPU(신경망처리장치)");
   ("GPU", "GPU(그래픽처리장치)");
   ("CPU", "CPU(중앙처리장치)")].

Definition synonym_map : list (string * list string) :=
  [("매출", ["매출"; "수익"; "실적"; "매출액"; "영업수익"]);
   ("이익", ["이익"; "영업이익"; "순이익"; "수익성"]);
   ("환경", ["환경"; "친환경"; "지속가능"; "ESG"; "그린"]);
   ("탄소", ["탄소"; "온실가스"; "CO2"; "이산화탄소"; "배출량"]);
   ("재생에너지", ["재생에너지"; "신재생에너지"; "재생가능에너지"; "태양광"; "풍력"]);
   ("폐기물", ["폐기물"; "쓰레기"; "폐제품"; "재활용"; "순환자원"]);
   ("임직원", ["임직원"; "직원"; "종업원"; "근로자"; "인력"]);
   ("협력사", ["협력사"; "협력회사"; "공급업체"; "파트너사"; "벤더"])].

(** One iteration of the loop of [preprocess_text]. *)
Definition abbreviation_step (text : string) (rule : string * string)
    : string :=
  if contains rule.1 text && negb (contains rule.2 text)
  then replace rule.1 rule.2 text
  else text.

(** [preprocess_text], for the table [table] of the instance. *)
Definition preprocess_text_with (table : list (string * string))
    (text : string) : string :=
  foldl abbreviation_step text table.

Definition preprocess_text : string → string :=
  preprocess_text_with abbreviation_map.

(** The inner loop of [enhance_query]. *)
Definition synonym_step (enhanced synonym : string) : string :=
  if negb (contains synonym enhanced)
  then enhanced +:+ " " +:+ synonym
  else enhanced.

(** One iteration of the outer loop: the test is on the original query. *)
Definition key_step (query : string) (enhanced : string)
    (entry : string * list string) : string :=
  if contains entry.1 query
  then foldl synonym_step enhanced entry.2
  else enhanced.

Definition enhance_query_with (table : list (string * list string))
    (query : string) : string :=
  foldl (key_step query) query table.

Definition enhance_query : string → string :=
  enhance_query_with synonym_map.

End QueryText.

(** ** Ingestion: [add_documents] of the store and of its wrapper *)
Module Ingestion.
Import Text.

(** One call of [collection.add]. *)
Record AddCall (E : Type) := {
  a_embeddings : list E;
  a_documents : list string;
  a_metadatas : list (gmap string pyval);
  a_ids : list string
}.
Arguments a_embeddings {E} _.
Arguments a_documents {E} _.
Arguments a_metadatas {E} _.
Arguments a_ids {E} _.

(** [f"doc_{i:04d}"]. *)
Definition doc_id (i : nat) : string :=
  "doc_" +:+ zfill 4 (pretty i).

Definition batch_size : nat := 50.

Section Store.
(** The embedding model: tokenizer and forward pass of ko-sroberta on a
    batch of texts, one vector per text. *)
Context {E : Type} (encode : list string → list E).

(** [get_embeddings]: the texts are preprocessed, then encoded. *)
Definition get_embeddings (texts : list string) : list E :=
  encode (QueryText.preprocess_text <$> texts).

(** [KoreanVectorStore.add_documents], as the calls of [collection.add] it
    issues, in order. *)
Definition add_documents (texts : list string)
    (metadatas : list (gmap string pyval)) : list (AddCall E) :=
  match texts with
  | [] => []
  | _ =>
      let ids := doc_id <$> seq 0 (length texts) in
      (λ i,
         let batch_end := (i + batch_size) `min` length texts in
         let batch_texts := slice texts i batch_end in
         {| a_embeddings := get_embeddings batch_texts;
            a_documents := batch_texts;
            a_metadatas := slice metadatas i batch_end;
            a_ids := slice ids i batch_end |})
      <$> range_step (length texts) batch_size
  end.

(** [VectorStore.add_documents]: a missing [metadatas] becomes one empty
    dictionary per text. *)
Definition wrapper_add_documents (texts : list string)
    (metadatas : option (list (gmap string pyval))) : list (AddCall E) :=
  match metadatas with
  | None => add_documents texts (replicate (length texts) ∅)
  | Some mds => add_documents texts mds
  end.
End Store.

End Ingestion.

(** ** Reading the store: [search_with_context], [get_statistics] *)
Module StoreReads.

(** Truth value of a metadata value. *)
Definition truthy (v : pyval) : bool :=
  match v with
  | PNone => false
  | PNum q => negb (Qeq_bool q 0)
  | PStr s => negb (bool_decide (s = EmptyString))
  end.

(** [v in s] for a set [s] of metadata values. *)
Definition in_set (v : pyval) (s : list pyval) : bool :=
  existsb (py_eq v) s.

(** [s.add(v)]. *)
Definition set_add (v : pyval) (s : list pyval) : list pyval :=
  if in_set v s then s else s ++ [v].

Definition chunk_id_of (d : Document) : pyval :=
  dict_get_default (metadata d) "chunk_id" (PStr EmptyString).

(** The loop of [search_with_context]; [added_ids] is the set built so
    far. *)
Fixpoint context_loop (docs : list Document) (added_ids : list pyval)
    : list Document :=
  match docs with
  | [] => []
  | d :: rest =>
      let chunk_id := chunk_id_of d in
      if truthy chunk_id && negb (in_set chunk_id added_ids)
      then d :: context_loop rest (set_add chunk_id added_ids)
      else context_loop rest added_ids
  end.

Definition search_with_context (self : KoreanVectorStore.t)
    (query : string) (k : nat) : result (list Document) :=
  docs ← KoreanVectorStore.similarity_search self query k;
  Ok (context_loop docs []).

(** The dictionary returned by [get_statistics]. *)
Record Statistics := {
  total_documents : nat;
  unique_sections : nat;
  unique_pages : nat;
  chunk_types : list (pyval * nat);
  embedding_dimension : nat
}.

(** [d[key] = d.get(key, 0) + 1] on a dictionary in insertion order. *)
Fixpoint count_up (key : pyval) (d : list (pyval * nat))
    : list (pyval * nat) :=
  match d with
  | [] => [(key, 1)]
  | (k, n) :: d' =>
      if py_eq k key then (k, n + 1) :: d' else (k, n) :: count_up key d'
  end.

(** The sets and the counter after the loop over the metadata. *)
Definition collect (key : string) (metadatas : list (gmap string pyval))
    : list pyval :=
  foldl (λ s md, match md !! key with
                 | Some v => set_add v s
                 | None => s
                 end) [] metadatas.

Definition count_types (metadatas : list (gmap string pyval))
    : list (pyval * nat) :=
  foldl (λ d md, match md !! "chunk_type" with
                 | Some v => count_up v d
                 | None => d
                 end) [] metadatas.

(** [get_statistics]; [None] is the empty dictionary returned when there is
    no collection. *)
Definition get_statistics (self : KoreanVectorStore.t)
    : option Statistics :=
  match KoreanVectorStore.collection_get self with
  | None => None
  | Some data =>
      Some {| total_documents := length (KoreanVectorStore.g_ids data);
              unique_sections :=
                length (collect "section"
                          (KoreanVectorStore.g_metadatas data));
              unique_pages :=
                length (collect "page"
                          (KoreanVectorStore.g_metadatas data));
              chunk_types :=
                count_types (KoreanVectorStore.g_metadatas data);
              embedding_dimension := 768 |}
  end.

(** [values] lists every value that some metadata has under [key], once
    each up to Python's [==]. *)
Definition distinct_values_of (key : string)
    (metadatas : list (gmap string pyval)) (values : list pyval) : Prop :=
  StronglySorted (λ a b, py_eq a b = false) values ∧
  (∀ w, w ∈ values → ∃ md, md ∈ metadatas ∧ md !! key = Some w) ∧
  (∀ md v, md ∈ metadatas → md !! key = Some v → in_set v values = true).

End StoreReads.

(** ** The tokenizer of the sparse index: [HybridSearch._tokenize]

    Here a text is the list of its code points.  [str.lower] is given on the
    code points whose lower case contains a character that a token can
    hold: the Latin capitals, U+0130 (which becomes [i] and U+0307) and the
    Kelvin sign U+212A (which becomes [k]); any other code point lowers to
    code points that cannot be part of a token, and is kept as it is, which
    gives the same tokens. *)
Module Tokenizer.

Definition is_hangul (c : N) : bool := (44032 <=? c)%N && (c <=? 55203)%N.
Definition is_latin (c : N) : bool := (97 <=? c)%N && (c <=? 122)%N.
Definition is_digit (c : N) : bool := (48 <=? c)%N && (c <=? 57)%N.
Definition dot : N := 46.
Definition percent : N := 37.

(** A character that starts (and fills) a token. *)
Definition is_word (c : N) : bool := is_hangul c || is_latin c || is_digit c.

Definition lower_char (c : N) : list N :=
  if (65 <=? c)%N && (c <=? 90)%N then [(c + 32)%N]
  else if (c =? 304)%N then [105; 775]%N
  else if (c =? 8490)%N then [107%N]
  else [c].

(** [text.lower()]. *)
Definition lower (text : list N) : list N := text ≫= lower_char.

(** The longest prefix of characters in a class, and what follows it: a
    greedy [[class]*]. *)
Fixpoint span (p : N → bool) (l : list N) : list N * list N :=
  match l with
  | [] => ([], [])
  | c :: l' =>
      if p c then let '(run, rest) := span p l' in (c :: run, rest)
      else ([], l)
  end.

(** A greedy optional character: [\.?] or [%?]. *)
Definition optional (c : N) (l : list N) : list N * list N :=
  match l with
  | x :: l' => if (x =? c)%N then ([x], l') else ([], l)
  | [] => ([], [])
  end.

(** [[0-9]+\.?[0-9]*%?] at the start of [l]. *)
Definition number_match (l : list N) : list N * list N :=
  let '(d1, r1) := span is_digit l in
  let '(p, r2) := optional dot r1 in
  let '(d2, r3) := span is_digit r2 in
  let '(q, r4) := optional percent r3 in
  (d1 ++ p ++ d2 ++ q, r4).

(** [re.findall(r'[가-힣]+|[a-z]+|[0-9]+\.?[0-9]*%?', text)]: the matches
    from left to right, each starting where the previous one ended; a
    character that starts no match is skipped.  Every step consumes a
    character, so [fuel = len(text)] steps suffice. *)
Fixpoint findall (fuel : nat) (l : list N) : list (list N) :=
  match fuel with
  | 0 => []
  | S fuel' =>
      match l with
      | [] => []
      | c :: rest =>
          if is_hangul c then
            let '(token, r) := span is_hangul l in token :: findall fuel' r
          else if is_latin c then
            let '(token, r) := span is_latin l in token :: findall fuel' r
          else if is_digit c then
            let '(token, r) := number_match l in token :: findall fuel' r
          else findall fuel' rest
      end
  end.

(** The particles 은 는 이 가 을 를 의 에 에서 로 으로 와 과. *)
Definition stopwords : list (list N) :=
  [[51008]; [45716]; [51060]; [44032]; [51012]; [47484]; [51032];
   [50640]; [50640; 49436]; [47196]; [51004; 47196]; [50752]; [44284]]%N.

Definition _tokenize (text : list N) : list (list N) :=
  let text := lower text in
  let tokens := findall (length text) text in
  filter (λ t, t ∉ stopwords) tokens.

(** The shape of a match of the third alternative. *)
Definition number_shape (t : list N) : Prop :=
  ∃ d1 p d2 q,
    t = d1 ++ p ++ d2 ++ q ∧ d1 ≠ [] ∧
    Forall (λ c, is_digit c = true) d1 ∧ (p = [] ∨ p = [dot]) ∧
    Forall (λ c, is_digit c = true) d2 ∧ (q = [] ∨ q = [percent]).

(** The shape of a token. *)
Definition token_shape (t : list N) : Prop :=
  t ≠ [] ∧
  (Forall (λ c, is_hangul c = true) t ∨
   Forall (λ c, is_latin c = true) t ∨
   number_shape t).

End Tokenizer.

(** ** The caller: [GeminiRAGPipeline.query] and the conversation history

    The language model, the prompt template and the text of an exception are
    parameters; the conversation memory is the list of its messages, to
    which [add_user_message] and [add_ai_message] append.  Printing is not
    modelled. *)
Module GeminiRAGPipeline.

(** A message of the chat memory: [type] is ["human"] or ["ai"]. *)
Record Message := {
  msg_type : string;
  msg_content : string
}.

(** One entry of ["sources"]. *)
Record Source := {
  s_index : nat;
  s_page : pyval;
  s_section : pyval;
  s_chunk_type : pyval;
  s_content : string;
  s_keywords : pyval;
  s_metrics : pyval
}.

(** The dictionary that [query] returns. *)
Record Response := {
  answer : string;
  sources : list Source
}.

Record t := {
  hybrid_search : HybridSearch.t;
  retriever : bool;
  memory : list Message
}.

Definition newline : string := String (Ascii.ascii_of_nat 10) EmptyString.

Definition not_initialized : string :=
  "시스템이 아직 초기화되지 않았습니다. PDF를 먼저 처리해주세요.".
Definition no_documents : string :=
  "관련 문서를 찾을 수 없습니다. 다른 질문을 해주세요.".
Definition failure_prefix : string :=
  "답변 생성 중 오류가 발생했습니다: ".

(** [text[:300] + "..." if len(text) > 300 else text]. *)
Definition preview (text : string) : string :=
  if decide (300 < char_length text)
  then take_chars 300 text +:+ "..."
  else text.

Definition source_of (i : nat) (d : Document) : Source :=
  {| s_index := i;
     s_page := dict_get_default (metadata d) "page" (PStr "Unknown");
     s_section := dict_get_default (metadata d) "section" (PStr "Unknown");
     s_chunk_type :=
       dict_get_default (metadata d) "chunk_type" (PStr "Unknown");
     s_content := preview (page_content d);
     s_keywords :=
       dict_get_default (metadata d) "keywords" (PStr EmptyString);
     s_metrics :=
       dict_get_default (metadata d) "metrics" (PStr EmptyString) |}.

(** [for i, doc in enumerate(docs, 1)]. *)
Definition sources_of (docs : list Document) : list Source :=
  imap (λ i d, source_of (S i) d) docs.

(** One line of the chat history given to the model. *)
Definition history_line (msg : Message) : string :=
  (if decide (msg_type msg = "human") then "사용자" else "어시스턴트")
  +:+ ": " +:+ msg_content msg.

(** The history of the last four messages. *)
Definition chat_history_of (messages : list Message) : string :=
  match messages with
  | [] => EmptyString
  | _ =>
      String.concat newline
        (history_line <$> drop (length messages - 4) messages)
  end.

Section Query.
Context (_tokenize : string → list string) (argsort : list Q → list nat).
(** [self.llm.predict]. *)
Context (predict : string → result string).
(** [self.prompt_template.format(context=, chat_history=, question=)]. *)
Context (format_prompt : string → string → string → result string).
(** [str(e)]. *)
Context (str_of_exn : exn → string).

Definition failure (e : exn) : Response :=
  {| answer := failure_prefix +:+ str_of_exn e; sources := [] |}.

(** [query]: the response and the memory afterwards. *)
Definition query (self : t) (question : string)
    : Response * list Message :=
  if negb (retriever self) then
    ({| answer := not_initialized; sources := [] |}, memory self)
  else
    match HybridSearch.search _tokenize argsort (hybrid_search self)
            question 5 true with
    | Raise e => (failure e, memory self)
    | Ok [] => ({| answer := no_documents; sources := [] |}, memory self)
    | Ok docs =>
        let context :=
          String.concat (newline +:+ newline) (page_content <$> docs) in
        let chat_history := chat_history_of (memory self) in
        match format_prompt context chat_history question with
        | Raise e => (failure e, memory self)
        | Ok prompt =>
            match predict prompt with
            | Raise e => (failure e, memory self)
            | Ok response =>
                ({| answer := response; sources := sources_of docs |},
                 memory self
                 ++ [{| msg_type := "human"; msg_content := question |};
                     {| msg_type := "ai"; msg_content := response |}])
            end
        end
    end.
End Query.

(** [get_conversation_history]: the messages taken two by two. *)
Definition get_conversation_history (messages : list Message)
    : list (string * string) :=
  omap (λ i,
          if decide (i + 1 < length messages) then
            q ← messages !! i;
            a ← messages !! (i + 1);
            Some (msg_content q, msg_content a)
          else None)
       (Text.range_step (length messages) 2).

(** The memory that holds the exchanges [pairs]: each question followed by
    its answer, as [query] appends them. *)
Definition dialogue (pairs : list (string * string)) : list Message :=
  pairs ≫= λ p, [ {| msg_type := "human"; msg_content := p.1 |};
                   {| msg_type := "ai"; msg_content := p.2 |} ].

End GeminiRAGPipeline.

(** ** More sample data *)
Module Samples.
Import HybridSearch Fixture.

(** A store that holds one document and whose nearest-neighbour query
    fails with [e]. *)
Definition failing_store (e : exn) : KoreanVectorStore.t :=
  {| KoreanVectorStore.collection_get :=
       Some {| KoreanVectorStore.g_ids := ["doc_0000"];
               KoreanVectorStore.g_documents := ["a"];
               KoreanVectorStore.g_metadatas := [page 1] |};
     KoreanVectorStore.collection_query := λ _ _, Raise e |}.

(** The engine that [__init__] builds over it. *)
Definition failing_engine (e : exn) : t :=
  {| vector_store := failing_store e;
     dense_weight := (3 # 5)%Q;
     sparse_weight := (1 - (3 # 5))%Q;
     documents := ["a"];
     metadatas := [page 1];
     ids := ["doc_0000"];
     bm25 := {| get_scores := λ _, [0%Q] |} |}.

(** The two chunks behind a store that reports the distance -1 for the
    second one. *)
Definition opposite_engine : t :=
  engine_state two_chunks [("a", page 1, 1); ("b", page 2, -1)]%Q
               [1 # 3; 0]%Q (1 # 2)%Q.

(** A store whose metadata carry chunk ids: two rows of chunk [c1], one row
    without an id and one row of chunk [c2]. *)
Definition chunk (id : string) : gmap string pyval :=
  {[ "chunk_id" := PStr id ]}.
Definition tagged_rows : list (string * gmap string pyval * Q) :=
  [("a", chunk "c1", 1 # 10); ("b", chunk "c1", 2 # 10);
   ("c", page 3, 3 # 10); ("d", chunk "c2", 4 # 10)]%Q.
Definition tagged_store : KoreanVectorStore.t :=
  collection tagged_rows.*1 tagged_rows.

(** A store of three chunks with the metadata that [get_statistics]
    reads. *)
Definition described (chunk_type section : string) (n : Z)
    : gmap string pyval :=
  {[ "chunk_type" := PStr chunk_type; "section" := PStr section;
     "page" := PNum (inject_Z n) ]}.
Definition described_store : KoreanVectorStore.t :=
  {| KoreanVectorStore.collection_get :=
       Some {| KoreanVectorStore.g_ids :=
                 ["doc_0000"; "doc_0001"; "doc_0002"];
               KoreanVectorStore.g_documents := ["a"; "b"; "c"];
               KoreanVectorStore.g_metadatas :=
                 [described "text" "intro" 1; described "table" "intro" 1;
                  described "text" "climate" 2] |};
     KoreanVectorStore.collection_query := λ _ _, Raise ExternalError |}.

(** Korean texts: [n] times the syllable 가 (three bytes each in UTF-8), and
    two chunks of 35 syllables that differ in the last one. *)
Fixpoint syllables (n : nat) : string :=
  match n with
  | 0 => EmptyString
  | S n' => "가" +:+ syllables n'
  end.
Definition korean_a : string := syllables 34 +:+ "나".
Definition korean_b : string := syllables 34 +:+ "다".
Definition korean_engine : t :=
  engine_state [(korean_a, page 1); (korean_b, page 2)]
               [(korean_a, page 1, 1); (korean_b, page 2, 3)]%Q
               [0; 0]%Q (3 # 5)%Q.

(** An embedding model that maps a text to its length. *)
Definition lengths (texts : list string) : list nat :=
  String.length <$> texts.

(** A chat pipeline over the two chunks: the model answers ["reply"] to
    every prompt, and one exchange is in the memory. *)
Definition reply (_ : string) : result string := Ok "reply".
Definition plain_prompt (context chat_history question : string)
    : result string :=
  Ok (context +:+ chat_history +:+ question).
Definition error_text (_ : exn) : string := "error".
Definition pipeline : GeminiRAGPipeline.t :=
  {| GeminiRAGPipeline.hybrid_search := two_chunks_engine;
     GeminiRAGPipeline.retriever := true;
     GeminiRAGPipeline.memory :=
       GeminiRAGPipeline.dialogue [("q0", "a0")] |}.

End Samples.

(** ** Lemmas: the [result] monad *)

Lemma bind_Ok {A B} (m : result A) (f : A → result B) (b : B) :
  m ≫= f = Ok b ↔ ∃ a, m = Ok a ∧ f a = Ok b.
Proof.
  destruct m as [a|e]; simpl; split.
  - intros Hf. by exists a.
  - by intros (a' & [= ->] & Hf).
  - intros [=].
  - by intros (a' & [=] & _).
Qed.

Lemma index_Ok {A} (l : list A) (i : nat) (x : A) :
  index l i = Ok x ↔ l !! i = Some x.
Proof. unfold index. destruct (l !! i); naive_solver. Qed.

Lemma index_lt {A} (l : list A) (i : nat) :
  i < length l → ∃ x, index l i = Ok x.
Proof.
  intros Hi. destruct (lookup_lt_is_Some_2 l i Hi) as [x Hx].
  exists x. by apply index_Ok.
Qed.

(** Unfolds one successful bind in hypothesis [H]. *)
Ltac bind_inv H :=
  let a := fresh "a" in
  let Ha := fresh "Ha" in
  apply bind_Ok in H as (a & Ha & H).

Lemma mapM_result_Ok {A B} (f : A → result B) (l : list A) (k : list B) :
  mapM f l = Ok k ↔ Forall2 (λ x y, f x = Ok y) l k.
Proof.
  revert k. induction l as [|x l IH]; intros k; simpl.
  - split; [intros [= <-]; constructor | by inversion 1].
  - split.
    + intros H. bind_inv H. bind_inv H. injection H as <-.
      constructor; [done | by apply IH].
    + inversion 1 as [|? y ? k' Hx Hl]; subst.
      apply bind_Ok. exists y. split; [done|].
      apply bind_Ok. exists k'. split; [by apply IH | done].
Qed.

Lemma mapM_result_total {A B} (f : A → result B) (l : list A) :
  Forall (λ x, ∃ y, f x = Ok y) l → ∃ k, mapM f l = Ok k.
Proof.
  induction 1 as [|x l [y Hy] _ [k Hk]].
  - by exists [].
  - exists (y :: k). apply mapM_result_Ok. constructor; [done|].
    by apply mapM_result_Ok.
Qed.

(** ** Lemmas: the stable sort *)
Section StableSortFacts.
Context {A : Type} (prec : A → A → bool).

Lemma stable_insert_perm (x : A) (l : list A) :
  stable_insert prec x l ≡ₚ x :: l.
Proof.
  induction l as [|y l IH]; simpl; [done|].
  destruct (prec y x); [|done].
  rewrite IH. apply Permutation_swap.
Qed.

Lemma stable_sort_perm (l : list A) : stable_sort prec l ≡ₚ l.
Proof.
  induction l as [|x l IH]; simpl; [done|].
  by rewrite stable_insert_perm, IH.
Qed.

Lemma stable_sort_length (l : list A) :
  length (stable_sort prec l) = length l.
Proof. by rewrite stable_sort_perm. Qed.

(** Elements of a class that [prec] does not order among themselves keep
    their order. *)
Lemma stable_insert_filter (P : A → Prop) `{!∀ x, Decision (P x)}
    (x : A) (l : list A) :
  (∀ y, P x → P y → prec y x = false) →
  filter P (stable_insert prec x l) = filter P (x :: l).
Proof.
  intros Hclass. induction l as [|y l IH]; simpl; [done|].
  destruct (prec y x) eqn:Hyx; [|done].
  rewrite (filter_cons P y), IH, !(filter_cons P x), (filter_cons P y).
  destruct (decide (P x)) as [Hx|Hx], (decide (P y)) as [Hy|Hy]; try done.
  rewrite Hclass in Hyx; done.
Qed.

Lemma stable_sort_filter (P : A → Prop) `{!∀ x, Decision (P x)}
    (l : list A) :
  (∀ x y, P x → P y → prec y x = false) →
  filter P (stable_sort prec l) = filter P l.
Proof.
  intros Hclass. induction l as [|x l IH]; simpl; [done|].
  rewrite stable_insert_filter by auto.
  by rewrite !(filter_cons P x), IH.
Qed.

(** The result is sorted for any transitive relation that agrees with
    [prec]. *)
Lemma stable_insert_sorted (R : relation A) `{!Transitive R}
    (x : A) (l : list A) :
  (∀ a b, prec b a = false → R a b) →
  (∀ a b, prec b a = true → R b a) →
  StronglySorted R l → StronglySorted R (stable_insert prec x l).
Proof.
  intros Hstay Hpass. induction 1 as [|y l Hl IH Hy]; simpl.
  - repeat constructor.
  - destruct (prec y x) eqn:Hyx.
    + constructor; [done|].
      rewrite stable_insert_perm. constructor; [by apply Hpass | done].
    + constructor; [by constructor|].
      constructor; [by apply Hstay|].
      eapply Forall_impl; [exact Hy|]. intros z Hz.
      etrans; [by apply Hstay | done].
Qed.

Lemma stable_sort_sorted (R : relation A) `{!Transitive R} (l : list A) :
  (∀ a b, prec b a = false → R a b) →
  (∀ a b, prec b a = true → R b a) →
  StronglySorted R (stable_sort prec l).
Proof.
  intros Hstay Hpass. induction l as [|x l IH]; simpl.
  - constructor.
  - by apply stable_insert_sorted.
Qed.
End StableSortFacts.

Lemma StronglySorted_take {A} (R : relation A) (n : nat) (l : list A) :
  StronglySorted R l → StronglySorted R (take n l).
Proof.
  intros Hl. rewrite <- (take_drop n l) in Hl.
  by apply sorting.StronglySorted_app_1_l in Hl.
Qed.

(** ** Lemmas: the [doc_scores] dictionary *)
Section TableFacts.
Import HybridSearch Fusion.

Lemma dict_update_keys f key (d : list (string * entry)) :
  (dict_update f key d).*1 = d.*1.
Proof.
  induction d as [|[k e] d IH]; csimpl; [done|].
  destruct (decide (k = key)); csimpl; by rewrite ?IH.
Qed.

Lemma dict_setdefault_keys key e (d : list (string * entry)) :
  (dict_setdefault key e d).*1 = add_key d.*1 key.
Proof.
  unfold dict_setdefault, dict_has, add_key.
  destruct (bool_decide (key ∈ d.*1)); [done|].
  by rewrite fmap_app.
Qed.

Lemma elem_of_dict_update f key (d : list (string * entry)) k e :
  NoDup d.*1 →
  (k, e) ∈ dict_update f key d ↔
    (k ≠ key ∧ (k, e) ∈ d) ∨ (k = key ∧ ∃ e1, (key, e1) ∈ d ∧ e = f e1).
Proof.
  induction d as [|[k0 e0] d IH]; simpl; intros Hnd.
  - set_solver.
  - apply NoDup_cons in Hnd as [Hk0 Hnd].
    assert (∀ e', (k0, e') ∈ d → False) as Hfresh.
    { intros e' He'. apply Hk0. apply list_elem_of_fmap. by exists (k0, e'). }
    destruct (decide (k0 = key)) as [->|Hne].
    + rewrite !elem_of_cons. split.
      * intros [[= -> ->]|Hin].
        -- right. split; [done|]. exists e0. by rewrite elem_of_cons; auto.
        -- left. split; [|by right]. intros ->. by eapply Hfresh.
      * intros [[Hk [[= ? ?]|Hin]]|[-> (e1 & He1 & ->)]];
          [congruence | by right |].
        apply elem_of_cons in He1 as [[= ->]|He1]; [by left|].
        by destruct (Hfresh e1).
    + rewrite !elem_of_cons, IH by done. split.
      * intros [[= -> ->]|[[Hk Hin]|[-> (e1 & He1 & ->)]]].
        -- left. split; [done | by left].
        -- left. split; [done | by right].
        -- right. split; [done|]. exists e1.
           by rewrite elem_of_cons; auto.
      * intros [[Hk [[= -> ->]|Hin]]|[-> (e1 & He1 & ->)]].
        -- by left.
        -- right. left. done.
        -- apply elem_of_cons in He1 as [[= ? ?]|He1]; [congruence|].
           right. right. split; [done|]. by exists e1.
Qed.

Lemma elem_of_dict_setdefault key e0 (d : list (string * entry)) k e :
  (k, e) ∈ dict_setdefault key e0 d ↔
    (k, e) ∈ d ∨ ((key ∉ d.*1) ∧ k = key ∧ e = e0).
Proof.
  unfold dict_setdefault, dict_has. case_bool_decide as Hin.
  - naive_solver.
  - rewrite elem_of_app, list_elem_of_singleton. naive_solver.
Qed.

(** One iteration of either loop of [_combine_results]. *)
Lemma elem_of_upsert f key e0 (d : list (string * entry)) k e :
  NoDup d.*1 →
  (k, e) ∈ dict_update f key (dict_setdefault key e0 d) ↔
    (k ≠ key ∧ (k, e) ∈ d) ∨
    (k = key ∧ ((∃ e1, (key, e1) ∈ d ∧ e = f e1) ∨
                ((key ∉ d.*1) ∧ e = f e0))).
Proof.
  intros Hnd. rewrite elem_of_dict_update.
  - setoid_rewrite elem_of_dict_setdefault. naive_solver.
  - rewrite dict_setdefault_keys. unfold add_key.
    case_bool_decide as Hin; [done|].
    apply NoDup_app. split_and!; [done | set_solver | apply NoDup_singleton].
Qed.

Lemma upsert_keys f key e0 (d : list (string * entry)) :
  (dict_update f key (dict_setdefault key e0 d)).*1 = add_key d.*1 key.
Proof. by rewrite dict_update_keys, dict_setdefault_keys. Qed.

(** Keys in order of first appearance. *)
Lemma elem_of_foldl_add_key (acc l : list string) k :
  k ∈ foldl add_key acc l ↔ k ∈ acc ∨ k ∈ l.
Proof.
  revert acc. induction l as [|x l IH]; intros acc; simpl.
  - set_solver.
  - rewrite IH. unfold add_key. case_bool_decide; set_solver.
Qed.

Lemma NoDup_foldl_add_key (acc l : list string) :
  NoDup acc → NoDup (foldl add_key acc l).
Proof.
  revert acc. induction l as [|x l IH]; intros acc Hacc; simpl; [done|].
  apply IH. unfold add_key. case_bool_decide as Hin; [done|].
  apply NoDup_app. split_and!; [done | set_solver | apply NoDup_singleton].
Qed.

Lemma elem_of_first_seen (l : list string) k : k ∈ first_seen l ↔ k ∈ l.
Proof. unfold first_seen. rewrite elem_of_foldl_add_key. set_solver. Qed.

Lemma NoDup_first_seen (l : list string) : NoDup (first_seen l).
Proof. apply NoDup_foldl_add_key, NoDup_nil_2. Qed.

Lemma first_seen_snoc (l : list string) k :
  first_seen (l ++ [k]) = add_key (first_seen l) k.
Proof. unfold first_seen. by rewrite foldl_app. Qed.

Lemma first_seen_length (l : list string) :
  length (first_seen l) = length (remove_dups l).
Proof.
  apply Permutation_length, NoDup_Permutation.
  - apply NoDup_first_seen.
  - apply NoDup_remove_dups.
  - intros k. by rewrite elem_of_first_seen, elem_of_remove_dups.
Qed.

(** The last score recorded for a key. *)
Lemma last_score_app key (l1 l2 : list (Document * Q)) :
  last_score key (l1 ++ l2) =
    match last_score key l2 with
    | Some s => Some s
    | None => last_score key l1
    end.
Proof.
  induction l1 as [|r l1 IH]; simpl.
  - by destruct (last_score key l2).
  - rewrite IH. by destruct (last_score key l2).
Qed.

Lemma last_score_snoc key (l : list (Document * Q)) r :
  last_score key (l ++ [r]) =
    if decide (doc_key r.1 = key) then Some r.2 else last_score key l.
Proof. rewrite last_score_app. simpl. by destruct (decide _). Qed.

Lemma last_score_None key (l : list (Document * Q)) :
  last_score key l = None ↔ key ∉ candidate_keys l.
Proof.
  unfold candidate_keys. induction l as [|r l IH]; simpl.
  - set_solver.
  - rewrite not_elem_of_cons, <- IH.
    destruct (last_score key l); [naive_solver|].
    destruct (decide (doc_key r.1 = key)); naive_solver.
Qed.


Lemma component_snoc_ne key (l : list (Document * Q)) r :
  doc_key r.1 ≠ key → component key (l ++ [r]) = component key l.
Proof.
  intros Hne. unfold component. by rewrite last_score_snoc, decide_False.
Qed.

Lemma component_snoc_eq (l : list (Document * Q)) r :
  component (doc_key r.1) (l ++ [r]) = r.2.
Proof. unfold component. by rewrite last_score_snoc, decide_True. Qed.

Lemma component_absent key (l : list (Document * Q)) :
  key ∉ candidate_keys l → component key l = 0%Q.
Proof. intros H. apply last_score_None in H. unfold component. by rewrite H. Qed.

Lemma component_last (l1 l2 : list (Document * Q)) d s :
  doc_key d ∉ candidate_keys l2 →
  component (doc_key d) (l1 ++ (d, s) :: l2) = s.
Proof.
  intros Hfresh%last_score_None. unfold component.
  rewrite last_score_app. simpl. by rewrite Hfresh, decide_True.
Qed.

Lemma candidate_keys_app (l1 l2 : list (Document * Q)) :
  candidate_keys (l1 ++ l2) = candidate_keys l1 ++ candidate_keys l2.
Proof. unfold candidate_keys. by rewrite !fmap_app. Qed.

Lemma candidate_keys_snoc (l : list (Document * Q)) r :
  candidate_keys (l ++ [r]) = candidate_keys l ++ [doc_key r.1].
Proof. by rewrite candidate_keys_app. Qed.

Lemma dense_table_inv (dense : list (Document * Q)) :
  table_inv dense [] (foldl dense_step [] dense).
Proof.
  induction dense as [|r l [Hkeys IH]] using rev_ind.
  - split; [done|]. intros k e Hin. by apply elem_of_nil in Hin.
  - rewrite foldl_app. simpl. unfold dense_step at 1.
    assert (NoDup (foldl dense_step [] l).*1) as Hnd.
    { rewrite Hkeys. apply NoDup_first_seen. }
    split.
    + rewrite upsert_keys, Hkeys, !app_nil_r, candidate_keys_snoc.
      by rewrite first_seen_snoc.
    + intros k e Hin. apply elem_of_upsert in Hin; [|done].
      destruct Hin as [[Hne Hin]|[-> [(e1 & Hin & ->)|[Hfresh ->]]]].
      * destruct (IH k e Hin) as (Hk & Hd & Hs & [[s Hdoc]|[_ [s Hdoc]]]);
          [|by apply elem_of_nil in Hdoc].
        split_and!; [done | | done |].
        -- by rewrite component_snoc_ne.
        -- left. exists s. set_solver.
      * destruct (IH _ e1 Hin) as (Hk & Hd & Hs & [[s Hdoc]|[_ [s Hdoc]]]);
          [|by apply elem_of_nil in Hdoc].
        simpl. split_and!; [done | | done |].
        -- by rewrite component_snoc_eq.
        -- left. exists s. set_solver.
      * simpl. split_and!; [done | | done |].
        -- by rewrite component_snoc_eq.
        -- left. exists r.2. destruct r. set_solver.
Qed.

Lemma doc_scores_inv (dense sparse : list (Document * Q)) :
  table_inv dense sparse (doc_scores dense sparse).
Proof.
  unfold doc_scores.
  induction sparse as [|r l [Hkeys IH]] using rev_ind.
  - simpl. apply dense_table_inv.
  - rewrite foldl_app. simpl. unfold sparse_step at 1.
    assert (NoDup (foldl sparse_step (foldl dense_step [] dense) l).*1)
      as Hnd.
    { rewrite Hkeys. apply NoDup_first_seen. }
    split.
    + rewrite upsert_keys, Hkeys, app_assoc, candidate_keys_snoc.
      by rewrite first_seen_snoc.
    + intros k e Hin. apply elem_of_upsert in Hin; [|done].
      destruct Hin as [[Hne Hin]|[-> [(e1 & Hin & ->)|[Hfresh ->]]]].
      * destruct (IH k e Hin) as (Hk & Hd & Hs & Hdoc).
        split_and!; [done | done | |].
        -- by rewrite component_snoc_ne.
        -- destruct Hdoc as [?|[? [s ?]]]; [by left|].
           right. split; [done|]. exists s. set_solver.
      * destruct (IH _ e1 Hin) as (Hk & Hd & Hs & Hdoc).
        simpl. split_and!; [done | done | |].
        -- by rewrite component_snoc_eq.
        -- destruct Hdoc as [?|[? [s ?]]]; [by left|].
           right. split; [done|]. exists s. set_solver.
      * rewrite Hkeys, elem_of_first_seen, candidate_keys_app in Hfresh.
        apply not_elem_of_app in Hfresh as [Hfd Hfs].
        simpl. split_and!; [done | | |].
        -- by rewrite component_absent.
        -- by rewrite component_snoc_eq.
        -- right. split; [done|]. exists r.2. destruct r. set_solver.
Qed.
End TableFacts.

(** ** Score aggregation *)
Section Aggregation.
Import HybridSearch Fusion.

Lemma elem_of_final_scores (self : t) (dense sparse : list (Document * Q))
    (d : Document) (c : Q) :
  (d, c) ∈ final_scores self dense sparse ↔
    ∃ k e, (k, e) ∈ doc_scores dense sparse ∧ d = doc e ∧
           c = (dense_weight self * dense_score e
                + sparse_weight self * sparse_score e)%Q.
Proof.
  unfold final_scores. change map with (@fmap list _). rewrite list_elem_of_fmap. split.
  - intros ([k e] & [= -> ->] & Hin). by exists k, e.
  - intros (k & e & Hin & -> & ->). by exists (k, e).
Qed.

Lemma final_scores_keys (self : t) (dense sparse : list (Document * Q)) :
  candidate_keys (final_scores self dense sparse) =
    first_seen (candidate_keys (dense ++ sparse)).
Proof.
  destruct (doc_scores_inv dense sparse) as [Hkeys Hinv].
  rewrite <- Hkeys. unfold candidate_keys, final_scores.
  change map with (@fmap list _).
  rewrite <- !list_fmap_compose. apply Forall_fmap_ext_1, Forall_forall.
  intros [k e] Hin. simpl. by destruct (Hinv k e Hin) as [-> _].
Qed.

Lemma final_scores_component (self : t) (dense sparse : list (Document * Q))
    (d : Document) (c : Q) :
  (d, c) ∈ final_scores self dense sparse →
  c = (dense_weight self * component (doc_key d) dense
       + sparse_weight self * component (doc_key d) sparse)%Q.
Proof.
  intros Hin. apply elem_of_final_scores in Hin as (k & e & Hin & -> & ->).
  destruct (doc_scores_inv dense sparse) as [_ Hinv].
  destruct (Hinv k e Hin) as (-> & -> & -> & _). done.
Qed.

Lemma final_scores_origin (self : t) (dense sparse : list (Document * Q))
    (d : Document) (c : Q) :
  (d, c) ∈ final_scores self dense sparse →
  (∃ s, (d, s) ∈ dense) ∨
  ((doc_key d ∉ candidate_keys dense) ∧ ∃ s, (d, s) ∈ sparse).
Proof.
  intros Hin. apply elem_of_final_scores in Hin as (k & e & Hin & -> & ->).
  destruct (doc_scores_inv dense sparse) as [_ Hinv].
  destruct (Hinv k e Hin) as (-> & _ & _ & Horigin). done.
Qed.

(** C1, as amended: for candidate lists [dense] and [sparse], the fused
    list has one pair per distinct key, in order of first appearance among
    the dense and then the sparse candidates; the dense and sparse
    components of a key are the scores of the last dense and of the last
    sparse candidate that carry the key (0 when there is none), and the
    combined score is [dense_weight * dense component + sparse_weight *
    sparse component]. *)
Theorem C1_combined_score (self : t) (dense sparse : list (Document * Q)) :
  candidate_keys (final_scores self dense sparse) =
    first_seen (candidate_keys (dense ++ sparse)) ∧
  (∀ d c, (d, c) ∈ final_scores self dense sparse →
     c = (dense_weight self * component (doc_key d) dense
          + sparse_weight self * component (doc_key d) sparse)%Q) ∧
  (∀ l1 l2 d s, doc_key d ∉ candidate_keys l2 →
     component (doc_key d) (l1 ++ (d, s) :: l2) = s) ∧
  (∀ l key, key ∉ candidate_keys l → component key l = 0%Q) ∧
  ∀ k, _combine_results self dense sparse k =
         (take k (stable_sort by_score_desc
                    (final_scores self dense sparse))).*1.
Proof.
  split_and!.
  - apply final_scores_keys.
  - apply final_scores_component.
  - intros l1 l2 d s Hfresh. by apply component_last.
  - intros l key Hkey. by apply component_absent.
  - done.
Qed.
End Aggregation.

(** ** Ranking *)
Section Ranking.
Import HybridSearch Fusion.
Context (_tokenize : string → list string) (argsort : list Q → list nat).

Local Abbreviation search := (search _tokenize argsort).
Local Abbreviation _sparse_search := (_sparse_search _tokenize argsort).

Global Instance score_ge_trans : Transitive score_ge.
Proof. intros a b c Hab Hbc. unfold score_ge in *. by eapply Qle_trans. Qed.

Lemma by_score_desc_false a b : by_score_desc b a = false → score_ge a b.
Proof.
  unfold by_score_desc, score_ge. intros H%bool_decide_eq_false.
  by apply Qnot_lt_le.
Qed.

Lemma by_score_desc_true a b : by_score_desc b a = true → score_ge b a.
Proof.
  unfold by_score_desc, score_ge. intros H%bool_decide_eq_true.
  by apply Qlt_le_weak.
Qed.

Lemma ranked_perm (self : t) dense sparse :
  ranked self dense sparse ≡ₚ final_scores self dense sparse.
Proof. apply stable_sort_perm. Qed.

Lemma ranked_sorted (self : t) dense sparse :
  StronglySorted score_ge (ranked self dense sparse).
Proof.
  apply (stable_sort_sorted _ score_ge);
    auto using by_score_desc_false, by_score_desc_true.
Qed.

Lemma ranked_stable (self : t) dense sparse (v : Q) :
  filter (λ p : Document * Q, p.2 == v)%Q (ranked self dense sparse) =
  filter (λ p : Document * Q, p.2 == v)%Q (final_scores self dense sparse).
Proof.
  apply stable_sort_filter. intros x y Hx Hy.
  unfold by_score_desc. apply bool_decide_eq_false.
  rewrite Hx, Hy. apply Qlt_irrefl.
Qed.

Lemma ranked_keys_NoDup (self : t) dense sparse :
  NoDup (candidate_keys (ranked self dense sparse)).
Proof.
  unfold candidate_keys. rewrite ranked_perm.
  fold (candidate_keys (final_scores self dense sparse)).
  rewrite final_scores_keys. apply NoDup_first_seen.
Qed.

Lemma ranked_length (self : t) dense sparse :
  length (ranked self dense sparse) =
    length (remove_dups (candidate_keys (dense ++ sparse))).
Proof.
  rewrite ranked_perm, <- first_seen_length.
  rewrite <- (final_scores_keys self).
  unfold candidate_keys. by rewrite !length_fmap.
Qed.

Lemma search_Ok (self : t) query k rerank res :
  search self query k rerank = Ok res ↔
    ∃ dense sparse,
      _dense_search self query (if rerank then k * 3 else k) = Ok dense ∧
      _sparse_search self query (if rerank then k * 3 else k) = Ok sparse ∧
      res = _combine_results self dense sparse k.
Proof.
  unfold HybridSearch.search. split.
  - intros H. bind_inv H. bind_inv H. injection H as <-. eauto.
  - intros (dense & sparse & Hd & Hs & ->).
    apply bind_Ok. exists dense. split; [done|].
    apply bind_Ok. exists sparse. done.
Qed.

(** C2, as amended: the list returned by [search] is the first [k]
    documents of the fused candidates sorted by combined score,
    descending; candidates with equal combined score keep the order in
    which their keys first appear among the dense candidates (in the
    store's order) followed by the sparse candidates (in rank order), not
    the corpus order; and the answer is a function of the engine and the
    query, so repeated calls return the same list. *)
Theorem C2_order (self : t) (query : string) (k : nat) (rerank : bool)
    (res : list Document) :
  search self query k rerank = Ok res →
  ∃ dense sparse,
    _dense_search self query (if rerank then k * 3 else k) = Ok dense ∧
    _sparse_search self query (if rerank then k * 3 else k) = Ok sparse ∧
    res = (take k (ranked self dense sparse)).*1 ∧
    ranked self dense sparse ≡ₚ final_scores self dense sparse ∧
    StronglySorted score_ge (ranked self dense sparse) ∧
    (∀ v : Q,
       filter (λ p : Document * Q, p.2 == v)%Q (ranked self dense sparse) =
       filter (λ p : Document * Q, p.2 == v)%Q
              (final_scores self dense sparse)) ∧
    candidate_keys (final_scores self dense sparse) =
      first_seen (candidate_keys (dense ++ sparse)) ∧
    ∀ res', search self query k rerank = Ok res' → res' = res.
Proof.
  intros Hres. pose proof Hres as Hres'.
  apply search_Ok in Hres' as (dense & sparse & Hd & Hs & ->).
  exists dense, sparse. split_and!; try done.
  - apply ranked_perm.
  - apply ranked_sorted.
  - apply ranked_stable.
  - apply final_scores_keys.
  - intros res' Hres'. congruence.
Qed.

(** C3, as amended: [search] returns at most [k] documents; it returns
    exactly the smaller of [k] and the number of distinct 100-character
    prefixes among the dense and sparse candidates, hence [k] documents
    whenever the candidates carry at least [k] distinct prefixes. *)
Theorem C3_length (self : t) (query : string) (k : nat) (rerank : bool)
    (res : list Document) :
  search self query k rerank = Ok res →
  length res ≤ k ∧
  ∃ dense sparse,
    _dense_search self query (if rerank then k * 3 else k) = Ok dense ∧
    _sparse_search self query (if rerank then k * 3 else k) = Ok sparse ∧
    length res =
      k `min` length (remove_dups (candidate_keys (dense ++ sparse))) ∧
    (k ≤ length (remove_dups (candidate_keys (dense ++ sparse))) →
     length res = k).
Proof.
  intros (dense & sparse & Hd & Hs & ->)%search_Ok.
  unfold _combine_results.
  rewrite length_fmap, length_take, ranked_length.
  split; [lia|]. exists dense, sparse. split_and!; [done | done | done | lia].
Qed.

(** C9: the documents returned by [search] have pairwise distinct
    100-character prefixes: candidates that share a prefix are one entry
    of the fused table. *)
Theorem C9_distinct_prefixes (self : t) (query : string) (k : nat)
    (rerank : bool) (res : list Document) :
  search self query k rerank = Ok res →
  NoDup (doc_key <$> res) ∧
  ∀ i j d1 d2, res !! i = Some d1 → res !! j = Some d2 →
    take_chars 100 (page_content d1) =
      take_chars 100 (page_content d2) →
    i = j.
Proof.
  intros (dense & sparse & Hd & Hs & ->)%search_Ok.
  assert (NoDup (doc_key <$> _combine_results self dense sparse k)) as Hnd.
  { unfold _combine_results. rewrite !fmap_take.
    eapply sublist_NoDup; [apply ranked_keys_NoDup | apply sublist_take]. }
  split; [done|]. intros i j d1 d2 Hi Hj Hkey.
  change (doc_key d1 = doc_key d2) in Hkey.
  eapply NoDup_lookup; [exact Hnd | |];
    rewrite list_lookup_fmap; [by rewrite Hi | rewrite Hj; simpl; by rewrite Hkey].
Qed.
End Ranking.

(** ** The dense path *)
Section Dense.
Import HybridSearch Fusion.

Lemma transform_bounds (x : Q) :
  (0 <= x → 0 < 1 / (1 + x) ∧ 1 / (1 + x) <= 1)%Q.
Proof.
  intros Hx. split.
  - apply Qlt_shift_div_l; lra.
  - apply Qle_shift_div_r; lra.
Qed.

Lemma transform_decreasing (x y : Q) :
  (0 <= x → x < y → 1 / (1 + y) < 1 / (1 + x))%Q.
Proof.
  intros Hx Hxy. apply Qlt_shift_div_r; [lra|].
  assert (1 / (1 + x) * (1 + y) == (1 + y) / (1 + x))%Q as ->
    by (field; lra).
  apply Qlt_shift_div_l; lra.
Qed.

Lemma similarity_of_distance (d : Document) (x : Q) :
  metadata d !! "distance" = Some (PNum x) → ¬ (1 + x == 0)%Q →
  similarity d = Ok (1 / (1 + x))%Q.
Proof.
  intros Hd Hx. unfold similarity, dict_get_default. rewrite Hd. simpl.
  unfold true_div. by rewrite decide_False.
Qed.

Lemma similarity_inv (d : Document) (x s : Q) :
  metadata d !! "distance" = Some (PNum x) → similarity d = Ok s →
  s = (1 / (1 + x))%Q.
Proof.
  intros Hd. unfold similarity, dict_get_default. rewrite Hd. simpl.
  unfold true_div. case_decide; [done|]. by intros [= <-].
Qed.


Lemma dense_loop_Ok (docs : list Document) (dense : list (Document * Q)) :
  dense_loop docs = Ok dense ↔
    Forall2 (λ d p, p.1 = d ∧ similarity d = Ok p.2) docs dense.
Proof.
  unfold dense_loop. rewrite mapM_result_Ok.
  split; intros H; eapply Forall2_impl; try exact H;
    intros d [d' s]; simpl.
  - intros Hd. bind_inv Hd. by injection Hd as <- <-.
  - intros [-> Hs]. by rewrite Hs.
Qed.

Lemma dense_loop_elems (docs : list Document) (dense : list (Document * Q)) :
  dense_loop docs = Ok dense →
  dense.*1 = docs ∧ ∀ d s, (d, s) ∈ dense → similarity d = Ok s.
Proof.
  intros H%dense_loop_Ok. induction H as [|d [d' s] docs dense [Hd Hs] _ IH].
  - split; [done|]. intros d s Hin. by apply elem_of_nil in Hin.
  - simpl in *. subst d'. destruct IH as [<- IH]. split; [done|].
    intros d0 s0 [[= -> ->]|Hin]%elem_of_cons; auto.
Qed.

Lemma dense_loop_total (docs : list Document) :
  (∀ d, d ∈ docs → ∃ s, similarity d = Ok s) →
  ∃ dense, dense_loop docs = Ok dense.
Proof.
  intros Hall. apply mapM_result_total, Forall_forall. intros d Hd.
  destruct (Hall d Hd) as [s Hs]. exists (d, s). by rewrite Hs.
Qed.

Lemma zip_documents_distance docs metas dists (d : Document) :
  d ∈ KoreanVectorStore.zip_documents docs metas dists →
  ∃ x, x ∈ dists ∧ metadata d !! "distance" = Some (PNum x).
Proof.
  revert metas dists.
  induction docs as [|doc docs IH]; intros [|md metas] [|x dists]; simpl;
    try (intros Hin; by apply elem_of_nil in Hin).
  intros [->|Hin]%elem_of_cons.
  - exists x. split; [by left|]. simpl. apply lookup_insert_eq.
  - destruct (IH _ _ Hin) as (y & Hy & Hd). exists y. split; [by right|done].
Qed.

Lemma similarity_search_distance (vs : KoreanVectorStore.t) query k docs d :
  KoreanVectorStore.similarity_search vs query k = Ok docs → d ∈ docs →
  ∃ x, metadata d !! "distance" = Some (PNum x) ∧
       ∀ r, KoreanVectorStore.collection_query vs query k = Ok r →
            KoreanVectorStore.q_distances r = None → x = 0%Q.
Proof.
  unfold KoreanVectorStore.similarity_search. intros H Hd. bind_inv H.
  destruct (KoreanVectorStore.q_documents a) as [|[|doc docs0] rest].
  - injection H as <-. by apply elem_of_nil in Hd.
  - injection H as <-. by apply elem_of_nil in Hd.
  - bind_inv H. bind_inv H. injection H as <-.
    destruct (zip_documents_distance (doc :: docs0) a0 a1 d Hd)
      as (x & Hx & Hmd).
    exists x. split; [done|]. intros r Hr Hnone.
    rewrite Ha in Hr. injection Hr as <-. rewrite Hnone in Ha1.
    injection Ha1 as <-.
    change (x ∈ replicate (S (length docs0)) 0%Q) in Hx.
    by apply elem_of_replicate in Hx as [-> _].
Qed.

(** C6: the dense retriever maps every chunk that the store returns, in the
    store's order, to the pair of the chunk and the similarity [1 / (1 + d)]
    of the distance [d] reported for it, whenever the reported distances are
    not negative; so every dense result carries that similarity.  For
    [d >= 0] the similarity is computed without error, lies in (0, 1], is 1
    at [d = 0], and is strictly decreasing in [d]. *)
Theorem C6_similarity_transform (self : t) (query : string) (k : nat) :
  (∀ docs,
     KoreanVectorStore.similarity_search (vector_store self) query k
       = Ok docs →
     (∀ d x, d ∈ docs → metadata d !! "distance" = Some (PNum x) →
             (0 <= x)%Q) →
     ∃ dense,
       _dense_search self query k = Ok dense ∧
       Forall2 (λ d p, p.1 = d ∧
                       ∃ x, metadata d !! "distance" = Some (PNum x) ∧
                            p.2 = (1 / (1 + x))%Q)
               docs dense) ∧
  (∀ dense d s, _dense_search self query k = Ok dense → (d, s) ∈ dense →
     ∃ x, metadata d !! "distance" = Some (PNum x) ∧
          s = (1 / (1 + x))%Q) ∧
  (∀ d x, metadata d !! "distance" = Some (PNum x) → (0 <= x)%Q →
     ∃ s, similarity d = Ok s ∧ s = (1 / (1 + x))%Q ∧
          (0 < s)%Q ∧ (s <= 1)%Q ∧ ((x == 0)%Q → (s == 1)%Q)) ∧
  (∀ d1 d2 x1 x2 s1 s2,
     metadata d1 !! "distance" = Some (PNum x1) →
     metadata d2 !! "distance" = Some (PNum x2) →
     (0 <= x1)%Q → (x1 < x2)%Q →
     similarity d1 = Ok s1 → similarity d2 = Ok s2 → (s2 < s1)%Q).
Proof.
  split_and!.
  - intros docs Hdocs Hpos.
    assert (∀ d, d ∈ docs →
              ∃ x, metadata d !! "distance" = Some (PNum x) ∧
                   similarity d = Ok (1 / (1 + x))%Q) as Hsim.
    { intros d Hd.
      destruct (similarity_search_distance _ _ _ _ _ Hdocs Hd)
        as (x & Hx & _).
      exists x. split; [done|]. apply similarity_of_distance; [done|].
      specialize (Hpos d x Hd Hx). lra. }
    destruct (dense_loop_total docs) as [dense Hdense].
    { intros d Hd. destruct (Hsim d Hd) as (x & _ & Hs). by eexists. }
    exists dense. split.
    { unfold _dense_search. by rewrite Hdocs. }
    apply dense_loop_Ok in Hdense.
    apply Forall2_same_length_lookup. split; [by eapply Forall2_length|].
    intros i d p Hd Hp.
    destruct (Forall2_lookup_lr _ _ _ _ _ _ Hdense Hd Hp) as [Hfst Hs].
    split; [done|].
    destruct (Hsim d (list_elem_of_lookup_2 _ _ _ Hd)) as (x & Hx & Hsx).
    exists x. split; [done|]. congruence.
  - intros dense d s H Hin. unfold _dense_search in H. bind_inv H.
    apply dense_loop_elems in H as [Hdocs Hsim].
    assert (d ∈ a) as Hd.
    { rewrite <- Hdocs. apply list_elem_of_fmap. by exists (d, s). }
    destruct (similarity_search_distance _ _ _ _ _ Ha Hd) as (x & Hx & _).
    exists x. split; [done|]. eapply similarity_inv; eauto.
  - intros d x Hd Hx. exists (1 / (1 + x))%Q.
    destruct (transform_bounds x Hx) as [Hpos Hle].
    split_and!; try done.
    + apply similarity_of_distance; [done|]. lra.
    + by intros ->.
  - intros d1 d2 x1 x2 s1 s2 Hd1 Hd2 Hx1 Hx12 Hs1 Hs2.
    rewrite (similarity_inv _ _ _ Hd1 Hs1), (similarity_inv _ _ _ Hd2 Hs2).
    by apply transform_decreasing.
Qed.

Lemma last_score_elem key (l : list (Document * Q)) s :
  last_score key l = Some s → ∃ d, (d, s) ∈ l ∧ doc_key d = key.
Proof.
  induction l as [|[d0 s0] l IH]; simpl; [done|].
  destruct (last_score key l) as [s'|].
  - intros [= ->]. destruct IH as (d & Hin & Hk); [done|].
    exists d. split; [by right|done].
  - case_decide; [|done]. intros [= ->]. exists d0. split; [by left|done].
Qed.

Lemma last_score_is_Some key (l : list (Document * Q)) :
  key ∈ candidate_keys l → is_Some (last_score key l).
Proof.
  intros Hin. destruct (last_score key l) eqn:Hl; [done|].
  by apply last_score_None in Hl.
Qed.

End Dense.

(** ** The sparse path, construction, and totality of [search] *)
Section Sparse.
Import HybridSearch Fusion.
Context (_tokenize : string → list string).
Context (BM25Okapi : list (list string) → result Bm25).
Context (argsort : list Q → list nat).

Local Abbreviation search := (search _tokenize argsort).
Local Abbreviation _sparse_search := (_sparse_search _tokenize argsort).
Local Abbreviation __init__ := (__init__ _tokenize BM25Okapi).

Lemma normalized_bounds (s : Q) :
  (0 < s → 0 < s / (s + 1) ∧ s / (s + 1) < 1)%Q.
Proof.
  intros Hs. split.
  - apply Qlt_shift_div_l; lra.
  - apply Qlt_shift_div_r; lra.
Qed.

Lemma sparse_loop_cons (self : t) (scores : list Q) idx rest :
  sparse_loop self scores (idx :: rest) =
    s ← index scores idx;
    if decide (0 < s)%Q then
      text ← index (documents self) idx;
      md ← (if decide (idx < length (metadatas self))
            then index (metadatas self) idx else Ok ∅);
      results ← sparse_loop self scores rest;
      Ok (({| page_content := text; metadata := md |},
           (s / (s + 1))%Q) :: results)
    else sparse_loop self scores rest.
Proof. reflexivity. Qed.

Lemma metadata_or_empty (metas : list (gmap string pyval)) (idx : nat) :
  (if decide (idx < length metas) then index metas idx else Ok ∅)
  = Ok (default ∅ (metas !! idx)).
Proof.
  case_decide as Hmd.
  - destruct (lookup_lt_is_Some_2 _ _ Hmd) as [md Hmd'].
    unfold index. by rewrite Hmd'.
  - by rewrite lookup_ge_None_2 by lia.
Qed.

Lemma sparse_loop_spec (self : t) (scores : list Q) (idxs : list nat) :
  Forall (λ i, i < length scores) idxs →
  length scores = length (documents self) →
  ∃ res, sparse_loop self scores idxs = Ok res ∧
    Forall2 (kept self scores)
            (filter (λ idx, 0 < default 0 (scores !! idx))%Q idxs) res.
Proof.
  intros Hidx Hlen. induction Hidx as [|idx idxs Hi _ [res [Hres IH]]].
  - exists []. split; [done | constructor].
  - destruct (lookup_lt_is_Some_2 scores idx Hi) as [s Hs].
    rewrite filter_cons. cbv beta. rewrite Hs.
    change (default 0%Q (Some s)) with s.
    rewrite sparse_loop_cons, (proj2 (index_Ok _ _ _) Hs).
    cbn [mbind result_bind].
    destruct (decide (0 < s)%Q) as [Hpos|Hneg]; [|by exists res].
    rewrite Hlen in Hi.
    destruct (lookup_lt_is_Some_2 (documents self) idx Hi) as [text Ht].
    rewrite (proj2 (index_Ok _ _ _) Ht), metadata_or_empty, Hres.
    cbn [mbind result_bind]. eexists. split; [done|].
    constructor; [|done]. exists s.
    destruct (normalized_bounds s Hpos). by split_and!.
Qed.

Lemma no_positive_score (scores : list Q) (idxs : list nat) :
  Forall (λ s, ¬ (0 < s)%Q) scores →
  filter (λ idx, 0 < default 0 (scores !! idx))%Q idxs = [].
Proof.
  intros Hzero. induction idxs as [|idx idxs IH]; [done|].
  rewrite filter_cons, IH. case_decide as Hpos; [|done]. exfalso.
  destruct (scores !! idx) as [s|] eqn:Hs; simpl in Hpos; [|lra].
  rewrite Forall_forall in Hzero. eapply Hzero; [|done].
  by eapply list_elem_of_lookup_2.
Qed.

Lemma top_indices_valid (scores : list Q) (k : nat) :
  argsort scores ≡ₚ seq 0 (length scores) →
  Forall (λ i, i < length scores) (top_indices argsort scores k).
Proof.
  intros Hperm. apply Forall_forall. intros i Hi. unfold top_indices in Hi.
  apply elem_of_take in Hi as (j & Hj & _).
  apply list_elem_of_lookup_2 in Hj. rewrite elem_of_reverse, Hperm in Hj.
  apply elem_of_seq in Hj. lia.
Qed.

(** C4, as amended: the sparse path succeeds and returns, in rank order,
    one result for every index among the top [k] whose raw BM25 score is
    strictly positive, and nothing else; the score of a kept result is
    [s / (s + 1)] for its raw score [s], which lies strictly between 0 and
    1; when no raw score is positive the result is empty.  In the combined
    score the sparse component belongs to the key, not to the chunk: it is 0
    for a key that no kept result carries, and otherwise it is the
    normalized score of a kept result with that key, whichever chunk of
    that key the fusion returns. *)
Theorem C4_sparse_results (self : t) (query : string) (k : nat) :
  argsort (get_scores (bm25 self) (_tokenize query))
    ≡ₚ seq 0 (length (get_scores (bm25 self) (_tokenize query))) →
  length (get_scores (bm25 self) (_tokenize query))
    = length (documents self) →
  ∃ res,
    _sparse_search self query k = Ok res ∧
    Forall2
      (λ idx p, ∃ s,
         get_scores (bm25 self) (_tokenize query) !! idx = Some s ∧
         (0 < s)%Q ∧
         documents self !! idx = Some (page_content p.1) ∧
         p.2 = (s / (s + 1))%Q ∧ (0 < p.2)%Q ∧ (p.2 < 1)%Q)
      (filter
         (λ idx, 0 < default 0 (get_scores (bm25 self) (_tokenize query)
                                  !! idx))%Q
         (take k (reverse (argsort (get_scores (bm25 self)
                                       (_tokenize query))))))
      res ∧
    (Forall (λ s, ¬ (0 < s)%Q) (get_scores (bm25 self) (_tokenize query)) →
     res = []) ∧
    (∀ dense d c, (d, c) ∈ final_scores self dense res →
       doc_key d ∉ candidate_keys res →
       c = (dense_weight self * component (doc_key d) dense
            + sparse_weight self * 0)%Q) ∧
    ∀ dense d c, (d, c) ∈ final_scores self dense res →
      doc_key d ∈ candidate_keys res →
      ∃ idx s p,
        p ∈ res ∧ doc_key p.1 = doc_key d ∧
        get_scores (bm25 self) (_tokenize query) !! idx = Some s ∧
        (0 < s)%Q ∧
        documents self !! idx = Some (page_content p.1) ∧
        p.2 = (s / (s + 1))%Q ∧
        c = (dense_weight self * component (doc_key d) dense
             + sparse_weight self * p.2)%Q.
Proof.
  intros Hperm Hlen. set (scores := get_scores _ _) in *.
  destruct (sparse_loop_spec self scores (top_indices argsort scores k))
    as (res & Hres & Hkept); [by apply top_indices_valid | done |].
  exists res. split_and!.
  - done.
  - eapply Forall2_impl; [exact Hkept|].
    intros idx p (s & ? & ? & ? & ? & ? & ? & ?). exists s. by split_and!.
  - intros Hzero. rewrite (no_positive_score scores _ Hzero) in Hkept.
    by inversion Hkept.
  - intros dense d c Hin Hkey.
    rewrite (final_scores_component _ _ _ _ _ Hin).
    by rewrite (component_absent _ res Hkey).
  - intros dense d c Hin Hkey.
    destruct (last_score_is_Some _ _ Hkey) as [sc Hsc].
    destruct (last_score_elem _ _ _ Hsc) as (d' & Hd' & Hkey').
    apply list_elem_of_lookup in Hd' as [i Hi].
    destruct (Forall2_lookup_r _ _ _ _ _ Hkept Hi)
      as (idx & _ & s & Hs & Hpos & Hdoc & _ & Hnorm & _).
    exists idx, s, (d', sc). split_and!; try done.
    + by apply list_elem_of_lookup_2 in Hi.
    + rewrite (final_scores_component _ _ _ _ _ Hin). unfold component.
      by rewrite Hsc.
Qed.

Lemma build_Ok (vs : KoreanVectorStore.t) (dw : Q) (self : t) :
  __init__ vs dw = Ok self →
  ∃ g index_,
    KoreanVectorStore.collection_get vs = Some g ∧
    KoreanVectorStore.g_documents g ≠ [] ∧
    BM25Okapi (map _tokenize (KoreanVectorStore.g_documents g))
      = Ok index_ ∧
    self = {| vector_store := vs;
              dense_weight := dw;
              sparse_weight := (1 - dw)%Q;
              documents := KoreanVectorStore.g_documents g;
              metadatas := KoreanVectorStore.g_metadatas g;
              ids := KoreanVectorStore.g_ids g;
              bm25 := index_ |}.
Proof.
  unfold HybridSearch.__init__, _build_bm25_index.
  destruct (KoreanVectorStore.collection_get vs) as [g|]; [|done].
  destruct (KoreanVectorStore.g_documents g) as [|doc docs] eqn:Hdocs;
    [done|].
  intros H. bind_inv H. injection H as <-.
  exists g, a. rewrite Hdocs. by split_and!.
Qed.

Lemma similarity_search_total (vs : KoreanVectorStore.t) query n r :
  KoreanVectorStore.collection_query vs query n = Ok r →
  KoreanVectorStore.well_formed r →
  ∃ docs, KoreanVectorStore.similarity_search vs query n = Ok docs ∧
    ∀ d, d ∈ docs →
      ∃ x, metadata d !! "distance" = Some (PNum x) ∧ (0 <= x)%Q.
Proof.
  intros Hr [Hmeta Hdist]. unfold KoreanVectorStore.similarity_search.
  rewrite Hr. simpl.
  destruct (KoreanVectorStore.q_documents r) as [|[|doc docs0] rest] eqn:Hd.
  - exists []. split; [done|]. intros d Hin. by apply elem_of_nil in Hin.
  - exists []. split; [done|]. intros d Hin. by apply elem_of_nil in Hin.
  - destruct (KoreanVectorStore.q_metadatas r) as [|metas0 ?]; [done|].
    simpl.
    destruct (KoreanVectorStore.q_distances r) as [ds|] eqn:Hds.
    + destruct (Hdist ds eq_refl) as [Hlen Hpos].
      destruct ds as [|row ds]; [done|]. simpl.
      exists (KoreanVectorStore.zip_documents (doc :: docs0) metas0 row).
      split; [done|]. intros d Hin.
      apply zip_documents_distance in Hin as (x & Hx & Hmd).
      exists x. split; [done|]. eapply Hpos; [by left | done].
    + exists (KoreanVectorStore.zip_documents (doc :: docs0) metas0
                (replicate (S (length docs0)) 0%Q)).
      split; [done|]. intros d Hin.
      apply zip_documents_distance in Hin as (x & Hx & Hmd).
      exists x. split; [done|].
      apply elem_of_replicate in Hx as [-> _]. lra.
Qed.

Lemma dense_search_total (self : t) query n r :
  KoreanVectorStore.collection_query (vector_store self) query n = Ok r →
  KoreanVectorStore.well_formed r →
  ∃ dense, _dense_search self query n = Ok dense.
Proof.
  intros Hr Hwf.
  destruct (similarity_search_total _ _ _ _ Hr Hwf) as (docs & Hdocs & Hpos).
  destruct (dense_loop_total docs) as [dense Hdense].
  { intros d Hd. destruct (Hpos d Hd) as (x & Hx & Hx0).
    exists (1 / (1 + x))%Q. apply similarity_of_distance; [done|]. lra. }
  exists dense. unfold _dense_search. by rewrite Hdocs.
Qed.

(** C5: constructing the engine over a store without documents raises
    [ValueError], so no engine exists to be queried; an engine that was
    built holds a non-empty corpus; and on a built engine [search] returns a
    list, for every query and every [k], whenever the store answers with a
    well-formed result, the ranker gives one score per corpus document and
    [argsort] gives a permutation of the indices.  A query without matching
    tokens (no positive score) makes the sparse path return the empty
    list. *)
Theorem C5_build_and_query (vs : KoreanVectorStore.t) (dw : Q) :
  (KoreanVectorStore.collection_get vs = None ∨
   (∃ g, KoreanVectorStore.collection_get vs = Some g ∧
         KoreanVectorStore.g_documents g = []) →
   __init__ vs dw = Raise ValueError) ∧
  (∀ self, __init__ vs dw = Ok self →
     documents self ≠ [] ∧ vector_store self = vs) ∧
  (∀ self query k (rerank : bool) r,
     __init__ vs dw = Ok self →
     (∀ tokens, length (get_scores (bm25 self) tokens)
                = length (documents self)) →
     (∀ scores, argsort scores ≡ₚ seq 0 (length scores)) →
     KoreanVectorStore.collection_query vs query
       (if rerank then k * 3 else k) = Ok r →
     KoreanVectorStore.well_formed r →
     (∃ res, search self query k rerank = Ok res) ∧
     (Forall (λ s, ¬ (0 < s)%Q)
             (get_scores (bm25 self) (_tokenize query)) →
      _sparse_search self query (if rerank then k * 3 else k) = Ok [])).
Proof.
  split_and!.
  - unfold HybridSearch.__init__, _build_bm25_index.
    intros [->|(g & -> & ->)]; done.
  - intros self (g & index_ & Hg & Hdocs & _ & ->)%build_Ok. done.
  - intros self query k rerank r Hbuilt Hscores Hargsort Hr Hwf.
    pose proof Hbuilt as (g & index_ & _ & _ & _ & Hself)%build_Ok.
    assert (vector_store self = vs) as Hvs by (by rewrite Hself).
    rewrite <- Hvs in Hr.
    destruct (dense_search_total self _ _ _ Hr Hwf) as [dense Hdense].
    destruct (sparse_loop_spec self
                (get_scores (bm25 self) (_tokenize query))
                (top_indices argsort
                   (get_scores (bm25 self) (_tokenize query))
                   (if rerank then k * 3 else k)))
      as (sparse & Hsparse & Hkept);
      [by apply top_indices_valid | by apply Hscores |].
    split.
    + exists (_combine_results self dense sparse k).
      apply search_Ok. by exists dense, sparse.
    + intros Hzero. unfold HybridSearch._sparse_search. rewrite Hsparse.
      f_equal. rewrite (no_positive_score _ _ Hzero) in Hkept.
      by inversion Hkept.
Qed.
End Sparse.

(** ** Filtering and the weight boundaries *)
Section FilterAndWeights.
Import HybridSearch Fusion.
Context (_tokenize : string → list string) (argsort : list Q → list nat).

Local Abbreviation search := (search _tokenize argsort).
Local Abbreviation _sparse_search := (_sparse_search _tokenize argsort).
Local Abbreviation search_with_filter :=
  (search_with_filter _tokenize argsort).








End FilterAndWeights.

(** ** The fixtures are engines that [__init__] builds *)
Lemma engine_state_built corpus nearest scores dense_weight :
  corpus ≠ [] →
  Fixture.engine (Fixture.collection corpus nearest) scores dense_weight =
    Ok (Fixture.engine_state corpus nearest scores dense_weight).
Proof. destruct corpus; [done|]. reflexivity. Qed.

Lemma argsort_stable_perm (scores : list Q) :
  Fixture.argsort_stable scores ≡ₚ seq 0 (length scores).
Proof. apply stable_sort_perm. Qed.

Section Examples.
Import HybridSearch Fusion Fixture.

Local Abbreviation search := (search one_token argsort_stable).
Local Abbreviation _sparse_search := (_sparse_search one_token argsort_stable).

(** C1 fails as stated: the store returns two chunks with the same
    100-character prefix at similarities 9/10 and 1/2; the combined score
    of their key uses 1/2, the last one seen, where the maximum is 9/10. *)
Lemma C1_counterexample :
  ∃ dense sparse d c,
    _dense_search (near_duplicates_engine [0; 0; 0]%Q (3 # 5)%Q) "q" 9
      = Ok dense ∧
    _sparse_search (near_duplicates_engine [0; 0; 0]%Q (3 # 5)%Q) "q" 9
      = Ok sparse ∧
    dense.*2 = [9 # 10; 4 # 5; 1 # 2]%Q ∧
    (d, c) ∈
      final_scores (near_duplicates_engine [0; 0; 0]%Q (3 # 5)%Q)
                   dense sparse ∧
    (c == 3 # 10)%Q ∧
    (spec_combined (near_duplicates_engine [0; 0; 0]%Q (3 # 5)%Q)
                   dense sparse (doc_key d) == 27 # 50)%Q ∧
    ¬ (c == spec_combined (near_duplicates_engine [0; 0; 0]%Q (3 # 5)%Q)
                          dense sparse (doc_key d))%Q.
Proof.
  eexists _, _, _, _. split_and!.
  - vm_compute. reflexivity.
  - vm_compute. reflexivity.
  - vm_compute. reflexivity.
  - vm_compute. apply list_elem_of_here.
  - vm_compute. reflexivity.
  - vm_compute. reflexivity.
  - intros H. vm_compute in H. discriminate.
Qed.

(** C2 fails as stated: chunk "b" (corpus position 1) and chunk "a"
    (corpus position 0) reach the same combined score 1/4; [search]
    returns "b" first, because the store ranked it first, where the corpus
    order would put "a" first. *)
Lemma C2_counterexample :
  ∃ dense sparse b a,
    _dense_search two_chunks_engine "q" 6 = Ok dense ∧
    _sparse_search two_chunks_engine "q" 6 = Ok sparse ∧
    ranked two_chunks_engine dense sparse = [b; a] ∧
    search two_chunks_engine "q" 2 true = Ok [b.1; a.1] ∧
    page_content b.1 = "b" ∧ page_content a.1 = "a" ∧
    documents two_chunks_engine = ["a"; "b"] ∧
    (b.2 == 1 # 4)%Q ∧ (a.2 == 1 # 4)%Q ∧
    ¬ spec_before (documents two_chunks_engine) b a.
Proof.
  eexists _, _, _, _. split_and!.
  - vm_compute. reflexivity.
  - vm_compute. reflexivity.
  - vm_compute. reflexivity.
  - vm_compute. reflexivity.
  - reflexivity.
  - reflexivity.
  - reflexivity.
  - vm_compute. reflexivity.
  - vm_compute. reflexivity.
  - intros [Hlt|(_ & i & j & Hi & Hj & Hij)].
    + vm_compute in Hlt. discriminate.
    + vm_compute in Hi, Hj. simplify_eq. lia.
Qed.

(** C2 at the two-chunk engine: the answer is the sorted fused list. *)
Lemma C2_order_witness :
  search two_chunks_engine "q" 2 true
    = Ok [{| page_content := "b";
             metadata := <["distance" := PNum 1]> (page 2) |};
          {| page_content := "a";
             metadata := <["distance" := PNum 3]> (page 1) |}] ∧
  ∃ dense sparse,
    _dense_search two_chunks_engine "q" 6 = Ok dense ∧
    _sparse_search two_chunks_engine "q" 6 = Ok sparse ∧
    StronglySorted score_ge (ranked two_chunks_engine dense sparse).
Proof.
  assert (search two_chunks_engine "q" 2 true
    = Ok [{| page_content := "b";
             metadata := <["distance" := PNum 1]> (page 2) |};
          {| page_content := "a";
             metadata := <["distance" := PNum 3]> (page 1) |}])
    as Hsearch by (vm_compute; reflexivity).
  split; [exact Hsearch|].
  destruct (C2_order one_token argsort_stable _ _ _ _ _ Hsearch)
    as (dense & sparse & Hd & Hs & _ & _ & Hsorted & _).
  by exists dense, sparse.
Defined.

(** C3 fails as stated: the corpus holds three chunks, each with positive
    dense similarity and positive sparse score, and [k = 3]; two of them
    share their first 100 characters, so [search] returns two documents. *)
Lemma C3_counterexample :
  ∃ dense res,
    _dense_search (near_duplicates_engine [1; 1; 1]%Q (3 # 5)%Q) "q" 9
      = Ok dense ∧
    page_content <$> dense.*1
      = documents (near_duplicates_engine [1; 1; 1]%Q (3 # 5)%Q) ∧
    Forall (λ p : Document * Q, 0 < p.2)%Q dense ∧
    length (documents (near_duplicates_engine [1; 1; 1]%Q (3 # 5)%Q)) = 3 ∧
    spec_sparse_evidence
      (get_scores (bm25 (near_duplicates_engine [1; 1; 1]%Q (3 # 5)%Q))
                  (one_token "q")) = 3 ∧
    search (near_duplicates_engine [1; 1; 1]%Q (3 # 5)%Q) "q" 3 true
      = Ok res ∧
    length res = 2.
Proof.
  eexists _, _. split_and!.
  - vm_compute. reflexivity.
  - vm_compute. reflexivity.
  - repeat constructor.
  - reflexivity.
  - vm_compute. reflexivity.
  - vm_compute. reflexivity.
  - reflexivity.
Qed.

(** C3 at the two-chunk engine with [k = 1]. *)
Lemma C3_length_witness :
  search two_chunks_engine "q" 1 true
    = Ok [{| page_content := "b";
             metadata := <["distance" := PNum 1]> (page 2) |}] ∧
  length [{| page_content := "b";
             metadata := <["distance" := PNum 1]> (page 2) |}] ≤ 1.
Proof.
  assert (search two_chunks_engine "q" 1 true
          = Ok [{| page_content := "b";
                   metadata := <["distance" := PNum 1]> (page 2) |}])
    as Hsearch by (vm_compute; reflexivity).
  split; [exact Hsearch|].
  exact (proj1 (C3_length one_token argsort_stable _ _ _ _ _ Hsearch)).
Defined.

(** C9 at the near-duplicate corpus: the two prefixes returned differ. *)
Lemma C9_distinct_prefixes_witness :
  search (near_duplicates_engine [1; 1; 1]%Q (3 # 5)%Q) "q" 3 true
    = Ok [{| page_content := chunk_b;
             metadata := <["distance" := PNum (1 # 4)]> (page 2) |};
          {| page_content := chunk_a;
             metadata := <["distance" := PNum (1 # 9)]> (page 1) |}] ∧
  NoDup (doc_key <$>
         [{| page_content := chunk_b;
             metadata := <["distance" := PNum (1 # 4)]> (page 2) |};
          {| page_content := chunk_a;
             metadata := <["distance" := PNum (1 # 9)]> (page 1) |}]).
Proof.
  assert (search (near_duplicates_engine [1; 1; 1]%Q (3 # 5)%Q) "q" 3 true
    = Ok [{| page_content := chunk_b;
             metadata := <["distance" := PNum (1 # 4)]> (page 2) |};
          {| page_content := chunk_a;
             metadata := <["distance" := PNum (1 # 9)]> (page 1) |}])
    as Hsearch by (vm_compute; reflexivity).
  split; [exact Hsearch|].
  exact (proj1 (C9_distinct_prefixes one_token argsort_stable _ _ _ _ _
                  Hsearch)).
Defined.

(** C4 fails as stated: of three chunks with raw BM25 scores 0, 1/100 and 1,
    the first and the third share their first 100 characters.  The sparse
    path drops the first chunk, yet [search] returns it, ahead of the
    second chunk, with the sparse score 1/2 of the third in its combined
    score; with no sparse contribution its score 3/10 would be below that
    of the second chunk. *)
Lemma C4_counterexample :
  ∃ dense sparse da db c cb,
    get_scores (bm25 (near_duplicates_engine [0; 1 # 100; 1]%Q (3 # 5)%Q))
               (one_token "q") !! 0 = Some 0%Q ∧
    documents (near_duplicates_engine [0; 1 # 100; 1]%Q (3 # 5)%Q) !! 0
      = Some (page_content da) ∧
    _dense_search (near_duplicates_engine [0; 1 # 100; 1]%Q (3 # 5)%Q)
                  "q" 9 = Ok dense ∧
    _sparse_search (near_duplicates_engine [0; 1 # 100; 1]%Q (3 # 5)%Q)
                   "q" 9 = Ok sparse ∧
    (page_content da ∉ page_content <$> sparse.*1) ∧
    search (near_duplicates_engine [0; 1 # 100; 1]%Q (3 # 5)%Q) "q" 3 true
      = Ok [da; db] ∧
    (da, c) ∈
      final_scores (near_duplicates_engine [0; 1 # 100; 1]%Q (3 # 5)%Q)
                   dense sparse ∧
    (db, cb) ∈
      final_scores (near_duplicates_engine [0; 1 # 100; 1]%Q (3 # 5)%Q)
                   dense sparse ∧
    (c == (3 # 5) * component (doc_key da) dense + (2 # 5) * (1 # 2))%Q ∧
    ¬ (c == (3 # 5) * component (doc_key da) dense + (2 # 5) * 0)%Q ∧
    ((3 # 5) * component (doc_key da) dense + (2 # 5) * 0 < cb)%Q ∧
    (cb < c)%Q.
Proof.
  eexists _, _,
    {| page_content := chunk_a;
       metadata := <["distance" := PNum (1 # 9)]> (page 1) |},
    {| page_content := chunk_b;
       metadata := <["distance" := PNum (1 # 4)]> (page 2) |}, _, _.
  split_and!.
  - reflexivity.
  - vm_compute. reflexivity.
  - vm_compute. reflexivity.
  - vm_compute. reflexivity.
  - vm_compute. intros Hin.
    repeat (apply elem_of_cons in Hin as [Hin|Hin]; [discriminate|]).
    by apply elem_of_nil in Hin.
  - vm_compute. reflexivity.
  - vm_compute. apply list_elem_of_here.
  - vm_compute. apply list_elem_of_further, list_elem_of_here.
  - vm_compute. reflexivity.
  - intros H. vm_compute in H. discriminate.
  - vm_compute. reflexivity.
  - vm_compute. reflexivity.
Qed.

(** C4 at the two-chunk engine: the one kept score lies in (0, 1). *)
Lemma C4_sparse_results_witness :
  argsort_stable (get_scores (bm25 two_chunks_engine) (one_token "q"))
    ≡ₚ seq 0 (length (get_scores (bm25 two_chunks_engine)
                                  (one_token "q"))) ∧
  length (get_scores (bm25 two_chunks_engine) (one_token "q"))
    = length (documents two_chunks_engine) ∧
  ∃ res, _sparse_search two_chunks_engine "q" 6 = Ok res ∧
         Forall (λ p : Document * Q, 0 < p.2 ∧ p.2 < 1)%Q res.
Proof.
  assert (argsort_stable (get_scores (bm25 two_chunks_engine)
                                     (one_token "q"))
          ≡ₚ seq 0 (length (get_scores (bm25 two_chunks_engine)
                                        (one_token "q")))) as Hperm
    by (vm_compute; apply Permutation_swap).
  assert (length (get_scores (bm25 two_chunks_engine) (one_token "q"))
          = length (documents two_chunks_engine)) as Hlen by reflexivity.
  split; [exact Hperm|]. split; [exact Hlen|].
  destruct (C4_sparse_results one_token argsort_stable two_chunks_engine
              "q" 6 Hperm Hlen) as (res & Hres & Hkept & _).
  exists res. split; [exact Hres|].
  apply Forall2_Forall_r with (1 := Hkept), Forall_true.
  intros idx p (s & _ & _ & _ & _ & Hpos & Hlt). by split.
Defined.

(** C5 at an empty collection and at the two-chunk collection. *)
Lemma C5_build_and_query_witness :
  __init__ one_token (table_ranker []) empty_collection (3 # 5)%Q
    = Raise ValueError ∧
  __init__ one_token (table_ranker [1 # 3; 0]%Q)
           (collection two_chunks two_chunks_ranking) (1 # 2)%Q
    = Ok two_chunks_engine ∧
  ∃ res, search two_chunks_engine "q" 2 true = Ok res.
Proof.
  split.
  - apply (C5_build_and_query one_token (table_ranker []) argsort_stable
             empty_collection (3 # 5)%Q).
    right. by eexists.
  - assert (__init__ one_token (table_ranker [1 # 3; 0]%Q)
              (collection two_chunks two_chunks_ranking) (1 # 2)%Q
            = Ok two_chunks_engine) as Hbuilt by reflexivity.
    split; [exact Hbuilt|].
    destruct (C5_build_and_query one_token (table_ranker [1 # 3; 0]%Q)
                argsort_stable (collection two_chunks two_chunks_ranking)
                (1 # 2)%Q) as (_ & _ & Hquery).
    eapply (Hquery two_chunks_engine "q" 2 true).
    + exact Hbuilt.
    + reflexivity.
    + intros scores. apply stable_sort_perm.
    + reflexivity.
    + split; [reflexivity|]. intros ds [= <-]. split; [reflexivity|].
      intros row x ->%list_elem_of_singleton Hx.
      repeat (apply elem_of_cons in Hx as [->|Hx]); [done | done |].
      by apply elem_of_nil in Hx.
Defined.

(** C6 at the two chunks, reported at the distances 1 and 3, and at a chunk
    reported at distance 3. *)
Lemma C6_similarity_transform_witness :
  (∃ dense,
     _dense_search two_chunks_engine "q" 6 = Ok dense ∧
     Forall2 (λ d p, p.1 = d ∧
                     ∃ x, metadata d !! "distance" = Some (PNum x) ∧
                          p.2 = (1 / (1 + x))%Q)
             [{| page_content := "b";
                 metadata := <["distance" := PNum 1]> (page 2) |};
              {| page_content := "a";
                 metadata := <["distance" := PNum 3]> (page 1) |}]
             dense) ∧
  metadata {| page_content := "a";
              metadata := <["distance" := PNum 3]> (page 1) |}
    !! "distance" = Some (PNum 3) ∧
  (0 <= 3)%Q ∧
  ∃ s, similarity {| page_content := "a";
                     metadata := <["distance" := PNum 3]> (page 1) |}
       = Ok s ∧ s = (1 / (1 + 3))%Q ∧ (0 < s)%Q ∧ (s <= 1)%Q.
Proof.
  assert (metadata {| page_content := "a";
                      metadata := <["distance" := PNum 3]> (page 1) |}
            !! "distance" = Some (PNum 3)) as Hd by reflexivity.
  assert (0 <= 3)%Q as Hpos by done.
  destruct (C6_similarity_transform two_chunks_engine "q" 6)
    as (Hmapped & _ & Hbounds & _).
  split; [|split; [exact Hd|]; split; [exact Hpos|]].
  - apply Hmapped; [vm_compute; reflexivity|].
    intros d x Hin Hx.
    repeat (apply elem_of_cons in Hin as [->|Hin]).
    + vm_compute in Hx. injection Hx as <-. done.
    + vm_compute in Hx. injection Hx as <-. done.
    + by apply elem_of_nil in Hin.
  - destruct (Hbounds _ 3%Q Hd Hpos) as (s & Hs & Heq & H0 & H1 & _).
    by exists s.
Defined.


(** Inside the deduplication window the order is that of the keys, not of
    the chunks: with [dense_weight = 1] the store returns chunks at
    similarities 9/10, 4/5 and 1/2, the first and the third sharing their
    first 100 characters; [search] returns the chunk of similarity 4/5
    before the chunk of similarity 9/10, whose key holds 1/2. *)
Lemma dedup_window_example :
  ∃ dense da db,
    dense_weight (near_duplicates_engine [0; 0; 0]%Q 1%Q) = 1%Q ∧
    _dense_search (near_duplicates_engine [0; 0; 0]%Q 1%Q) "q" 9
      = Ok dense ∧
    (da, 9 # 10)%Q ∈ dense ∧ (db, 4 # 5)%Q ∈ dense ∧
    search (near_duplicates_engine [0; 0; 0]%Q 1%Q) "q" 3 true
      = Ok [db; da] ∧
    (4 # 5 < 9 # 10)%Q.
Proof.
  eexists _, _, _. split_and!.
  - reflexivity.
  - vm_compute. reflexivity.
  - vm_compute. apply list_elem_of_here.
  - vm_compute. apply list_elem_of_further, list_elem_of_here.
  - vm_compute. reflexivity.
  - done.
Qed.


End Examples.

(** ** More on the two retrieval paths and their fusion *)
Section MoreSearch.
Import HybridSearch Fusion.
Context (_tokenize : string → list string).
Context (BM25Okapi : list (list string) → result Bm25).
Context (argsort : list Q → list nat).

Local Abbreviation search := (search _tokenize argsort).
Local Abbreviation _sparse_search := (_sparse_search _tokenize argsort).
Local Abbreviation search_with_filter :=
  (search_with_filter _tokenize argsort).
Local Abbreviation __init__ := (__init__ _tokenize BM25Okapi).

Lemma StronglySorted_sublist {A} (R : relation A) (l1 l2 : list A) :
  l1 `sublist_of` l2 → StronglySorted R l2 → StronglySorted R l1.
Proof.
  induction 1 as [|x l1 l2 Hsub IH|x l1 l2 Hsub IH]; intros Hl2.
  - constructor.
  - apply StronglySorted_inv in Hl2 as [Hl2 Hx]. constructor; [by apply IH|].
    eapply Forall_forall. intros y Hy. rewrite Forall_forall in Hx.
    apply Hx. by eapply elem_of_sublist.
  - apply StronglySorted_inv in Hl2 as [Hl2 _]. by apply IH.
Qed.

Lemma StronglySorted_reverse {A} (R : relation A) (l : list A) :
  StronglySorted R l → StronglySorted (flip R) (reverse l).
Proof.
  induction 1 as [|x l Hl IH Hx]; [constructor|].
  rewrite reverse_cons. apply sorting.StronglySorted_app. split_and!.
  - intros y z Hy ->%list_elem_of_singleton. rewrite Forall_forall in Hx.
    apply Hx. by apply elem_of_reverse.
  - done.
  - repeat constructor.
Qed.

(** A relation transported along a pointwise correspondence. *)
Lemma StronglySorted_Forall2 {A B} (P : A → B → Prop) (R : relation A)
    (R' : relation B) (l : list A) (k : list B) :
  (∀ a b a' b', P a b → P a' b' → R a a' → R' b b') →
  Forall2 P l k → StronglySorted R l → StronglySorted R' k.
Proof.
  intros Htrans HP. induction HP as [|a b l k Hab HP IH]; intros Hl.
  - constructor.
  - apply StronglySorted_inv in Hl as [Hl Ha]. constructor; [by apply IH|].
    clear IH Hl. induction HP as [|a' b' l k Hab' HP IH]; [constructor|].
    apply Forall_cons in Ha as [Haa' Ha]. constructor; eauto.
Qed.

Lemma normalized_increasing (s t : Q) :
  (0 < s → s <= t → s / (s + 1) <= t / (t + 1))%Q.
Proof.
  intros Hs Hst. apply Qle_shift_div_l; [lra|].
  assert (s / (s + 1) * (t + 1) == (s * (t + 1)) / (s + 1))%Q as ->
    by (field; lra).
  apply Qle_shift_div_r; [lra|]. nra.
Qed.

(** X1: when [argsort] returns the indices in ascending order of score, the
    sparse path returns at most [k] results, best first: their normalized
    scores never increase along the list. *)
Theorem X1_sparse_results_ranked (self : t) (query : string) (k : nat) :
  argsort (get_scores (bm25 self) (_tokenize query))
    ≡ₚ seq 0 (length (get_scores (bm25 self) (_tokenize query))) →
  StronglySorted
    (λ i j, default 0 (get_scores (bm25 self) (_tokenize query) !! i)
            <= default 0 (get_scores (bm25 self) (_tokenize query) !! j))%Q
    (argsort (get_scores (bm25 self) (_tokenize query))) →
  length (get_scores (bm25 self) (_tokenize query))
    = length (documents self) →
  ∃ res, _sparse_search self query k = Ok res ∧
         length res ≤ k ∧
         StronglySorted (λ p q : Document * Q, q.2 <= p.2)%Q res.
Proof.
  intros Hperm Hsorted Hlen. set (scores := get_scores _ _) in *.
  destruct (sparse_loop_spec self scores (top_indices argsort scores k))
    as (res & Hres & Hkept); [by apply top_indices_valid | done |].
  exists res. split_and!; [done | |].
  - rewrite <- (Forall2_length _ _ _ Hkept).
    etrans; [apply length_filter|]. unfold top_indices.
    rewrite length_take. lia.
  - eapply (StronglySorted_Forall2 (kept self scores)
              (flip (λ i j, default 0 (scores !! i)
                            <= default 0 (scores !! j))%Q));
      [|exact Hkept|].
    + intros i p j q (s & Hs & Hpos & _ & _ & -> & _)
                     (s' & Hs' & Hpos' & _ & _ & -> & _).
      unfold flip. rewrite Hs, Hs'. simpl. by apply normalized_increasing.
    + eapply StronglySorted_sublist; [apply sublist_filter|].
      unfold top_indices. apply StronglySorted_take.
      by apply StronglySorted_reverse.
Qed.

Lemma sparse_loop_elems (self : t) (scores : list Q) (idxs : list nat)
    (res : list (Document * Q)) :
  sparse_loop self scores idxs = Ok res →
  ∀ d s, (d, s) ∈ res →
    (0 < s)%Q ∧ (s < 1)%Q ∧
    ∃ idx, idx ∈ idxs ∧
           documents self !! idx = Some (page_content d) ∧
           metadata d = default ∅ (metadatas self !! idx).
Proof.
  revert res. induction idxs as [|idx idxs IH]; intros res Hres d s Hin.
  - injection Hres as <-. by apply elem_of_nil in Hin.
  - rewrite sparse_loop_cons in Hres. bind_inv Hres.
    destruct (decide (0 < a)%Q) as [Hpos|_].
    + bind_inv Hres. bind_inv Hres. bind_inv Hres. injection Hres as <-.
      rewrite metadata_or_empty in Ha1. injection Ha1 as <-.
      apply index_Ok in Ha0.
      apply elem_of_cons in Hin as [[= -> ->]|Hin].
      * destruct (normalized_bounds a Hpos). split_and!; try done.
        exists idx. split_and!; [by left | done | done].
      * destruct (IH _ Ha2 d s Hin) as (? & ? & i & ? & ? & ?).
        split_and!; try done. exists i. split_and!; [by right | done | done].
    + destruct (IH _ Hres d s Hin) as (? & ? & i & ? & ? & ?).
      split_and!; try done. exists i. split_and!; [by right | done | done].
Qed.

Lemma component_range (key : string) (l : list (Document * Q)) :
  (∀ d s, (d, s) ∈ l → 0 <= s ∧ s <= 1)%Q →
  (0 <= component key l ∧ component key l <= 1)%Q.
Proof.
  intros Hl. unfold component.
  destruct (last_score key l) as [s|] eqn:Hs; simpl; [|lra].
  destruct (last_score_elem _ _ _ Hs) as (d & Hin & _). eauto.
Qed.

Lemma dense_search_elems (self : t) query n dense :
  _dense_search self query n = Ok dense →
  ∃ docs,
    KoreanVectorStore.similarity_search (vector_store self) query n
      = Ok docs ∧
    dense.*1 = docs ∧
    ∀ d s, (d, s) ∈ dense → d ∈ docs ∧ similarity d = Ok s.
Proof.
  unfold _dense_search. intros H. bind_inv H.
  apply dense_loop_elems in H as [Hfst Hsim].
  exists a. split_and!; [done | done |]. intros d s Hin. split; [|eauto].
  rewrite <- Hfst. apply list_elem_of_fmap. by exists (d, s).
Qed.

(** X2: on an engine built with a dense weight between 0 and 1, when the
    store reports non-negative distances, every combined score that the
    fusion ranks lies between 0 and 1. *)
Theorem X2_combined_scores_bounded (vs : KoreanVectorStore.t) (dw : Q)
    (self : t) (query : string) (n : nat) (r : KoreanVectorStore.QueryResult)
    (dense sparse : list (Document * Q)) :
  __init__ vs dw = Ok self →
  (0 <= dw)%Q → (dw <= 1)%Q →
  KoreanVectorStore.collection_query vs query n = Ok r →
  KoreanVectorStore.well_formed r →
  _dense_search self query n = Ok dense →
  _sparse_search self query n = Ok sparse →
  ∀ d c, (d, c) ∈ ranked self dense sparse → (0 <= c)%Q ∧ (c <= 1)%Q.
Proof.
  intros Hbuilt Hdw0 Hdw1 Hr Hwf Hdense Hsparse d c Hin.
  apply build_Ok in Hbuilt as (g & index_ & _ & _ & _ & Hself).
  assert (vector_store self = vs ∧ dense_weight self = dw ∧
          sparse_weight self = (1 - dw)%Q) as (Hvs & Hw & Hsw)
    by (by rewrite Hself).
  rewrite ranked_perm in Hin.
  rewrite (final_scores_component _ _ _ _ _ Hin), Hw, Hsw.
  destruct (component_range (doc_key d) dense) as [Hd0 Hd1].
  { intros d' s Hd'.
    destruct (dense_search_elems _ _ _ _ Hdense) as (docs & Hdocs & _ & He).
    destruct (He d' s Hd') as [Hmem Hsim]. rewrite Hvs in Hdocs.
    destruct (similarity_search_total _ _ _ _ Hr Hwf)
      as (docs' & Hdocs' & Hpos).
    rewrite Hdocs in Hdocs'. injection Hdocs' as <-.
    destruct (Hpos d' Hmem) as (x & Hx & Hx0).
    rewrite (similarity_inv _ _ _ Hx Hsim).
    destruct (transform_bounds x Hx0). split; lra. }
  destruct (component_range (doc_key d) sparse) as [Hs0 Hs1].
  { intros d' s Hd'.
    destruct (sparse_loop_elems _ _ _ _ Hsparse d' s Hd') as (? & ? & _).
    split; lra. }
  split; nra.
Qed.

(** X3: [search] returns only documents it fetched: each returned document
    is one that the store's similarity search returned, or a chunk of the
    corpus snapshot (its text and metadata at some index) whose
    100-character prefix no dense candidate carries.  A chunk found by both
    paths is therefore returned as the store's document. *)
Theorem X3_results_are_candidates (self : t) (query : string) (k : nat)
    (rerank : bool) (res : list Document) :
  search self query k rerank = Ok res →
  ∃ docs,
    KoreanVectorStore.similarity_search (vector_store self) query
      (if rerank then k * 3 else k) = Ok docs ∧
    ∀ d, d ∈ res →
      d ∈ docs ∨
      ((doc_key d ∉ doc_key <$> docs) ∧
       ∃ idx, documents self !! idx = Some (page_content d) ∧
              metadata d = default ∅ (metadatas self !! idx)).
Proof.
  intros (dense & sparse & Hd & Hs & ->)%search_Ok.
  destruct (dense_search_elems _ _ _ _ Hd) as (docs & Hdocs & Hfst & He).
  exists docs. split; [done|]. intros d Hin.
  unfold _combine_results in Hin.
  apply list_elem_of_fmap in Hin as ([d' c] & -> & Hin). simpl.
  apply elem_of_take in Hin as (i & Hin & _).
  apply list_elem_of_lookup_2 in Hin. rewrite ranked_perm in Hin.
  destruct (final_scores_origin _ _ _ _ _ Hin) as [[s Hdense]|[Hkey [s Hsp]]].
  - left. by destruct (He d' s Hdense).
  - right. split.
    + by rewrite <- Hfst.
    + destruct (sparse_loop_elems _ _ _ _ Hs d' s Hsp)
        as (_ & _ & idx & _ & ? & ?).
      by exists idx.
Qed.

(** X4: a failure of the store is not swallowed: when the store's query
    raises, [search] raises the same exception, and so does
    [search_with_filter], whatever the filter. *)
Theorem X4_store_failure_propagates (self : t) (query : string) (k : nat)
    (e : exn) :
  (∀ rerank : bool,
     KoreanVectorStore.collection_query (vector_store self) query
       (if rerank then k * 3 else k) = Raise e →
     search self query k rerank = Raise e) ∧
  (∀ filter_dict,
     KoreanVectorStore.collection_query (vector_store self) query
       (k * 2 * 3) = Raise e →
     search_with_filter self query k filter_dict = Raise e).
Proof.
  assert (∀ n, KoreanVectorStore.collection_query (vector_store self)
                 query n = Raise e →
               _dense_search self query n = Raise e) as Hdense.
  { intros n Hq. unfold _dense_search, KoreanVectorStore.similarity_search.
    by rewrite Hq. }
  split.
  - intros rerank Hq. unfold HybridSearch.search. by rewrite (Hdense _ Hq).
  - intros filter_dict Hq.
    unfold HybridSearch.search_with_filter, HybridSearch.search.
    by rewrite (Hdense _ Hq).
Qed.

Lemma dense_loop_cons_Ok (d : Document) (docs : list Document) (s : Q) :
  similarity d = Ok s →
  dense_loop (d :: docs) = rest ← dense_loop docs; Ok ((d, s) :: rest).
Proof.
  intros Hs. unfold dense_loop.
  change (mapM ?f (d :: docs)) with (y ← f d; k ← mapM f docs; mret (y :: k)).
  cbv beta. by rewrite Hs.
Qed.

Lemma dense_loop_cons_Raise (d : Document) (docs : list Document) (e : exn) :
  similarity d = Raise e → dense_loop (d :: docs) = Raise e.
Proof.
  intros Hs. unfold dense_loop.
  change (mapM ?f (d :: docs)) with (y ← f d; k ← mapM f docs; mret (y :: k)).
  cbv beta. by rewrite Hs.
Qed.

Lemma dense_loop_ZeroDivision (docs : list Document) :
  (∀ d, d ∈ docs → ∃ x, metadata d !! "distance" = Some (PNum x)) →
  (∃ d x, d ∈ docs ∧ metadata d !! "distance" = Some (PNum x) ∧
          (x == -1)%Q) →
  dense_loop docs = Raise ZeroDivisionError.
Proof.
  induction docs as [|d docs IH]; intros Hnum Hbad.
  - destruct Hbad as (d & x & Hin & _). by apply elem_of_nil in Hin.
  - destruct (Hnum d) as [x Hx]; [by left|].
    destruct (decide (1 + x == 0)%Q) as [Hx0|Hx1].
    + apply dense_loop_cons_Raise.
      unfold similarity, dict_get_default. rewrite Hx. simpl.
      unfold true_div. by rewrite decide_True.
    + rewrite (dense_loop_cons_Ok d docs (1 / (1 + x))%Q)
        by (by apply similarity_of_distance).
      rewrite IH; [done | |].
      * intros d' Hd'. apply Hnum. by right.
      * destruct Hbad as (d' & x' & [->|Hin]%elem_of_cons & Hx' & Hneg).
        -- rewrite Hx in Hx'. injection Hx' as <-. exfalso. apply Hx1.
           rewrite Hneg. reflexivity.
        -- by exists d', x'.
Qed.

(** X5: the dense path divides by [1 + distance], so it succeeds exactly
    when the store reports no distance equal to -1, and raises
    [ZeroDivisionError] when it reports one. *)
Theorem X5_dense_zero_division (self : t) (query : string) (n : nat)
    (docs : list Document) :
  KoreanVectorStore.similarity_search (vector_store self) query n
    = Ok docs →
  ((∃ d x, d ∈ docs ∧ metadata d !! "distance" = Some (PNum x) ∧
           (x == -1)%Q) →
   _dense_search self query n = Raise ZeroDivisionError) ∧
  ((∀ d x, d ∈ docs → metadata d !! "distance" = Some (PNum x) →
           ¬ (x == -1)%Q) →
   ∃ dense, _dense_search self query n = Ok dense ∧ dense.*1 = docs).
Proof.
  intros Hdocs. unfold _dense_search. rewrite Hdocs. simpl.
  assert (∀ d, d ∈ docs → ∃ x, metadata d !! "distance" = Some (PNum x))
    as Hnum.
  { intros d Hd.
    destruct (similarity_search_distance _ _ _ _ _ Hdocs Hd) as (x & Hx & _).
    by exists x. }
  split.
  - intros Hbad. by apply dense_loop_ZeroDivision.
  - intros Hgood. destruct (dense_loop_total docs) as [dense Hdense].
    + intros d Hd. destruct (Hnum d Hd) as [x Hx].
      exists (1 / (1 + x))%Q. apply similarity_of_distance; [done|].
      intros Hx1. apply (Hgood d x Hd Hx). lra.
    + exists dense. split; [done|]. by destruct (dense_loop_elems _ _ Hdense).
Qed.
End MoreSearch.

(** ** Reading the store *)
Section StoreReadsFacts.
Import StoreReads.

Lemma py_eq_refl (v : pyval) : py_eq v v = true.
Proof.
  destruct v; simpl; [done | apply Qeq_bool_refl | by apply bool_decide_eq_true].
Qed.

Lemma py_eq_sym (v w : pyval) : py_eq v w = py_eq w v.
Proof.
  destruct v, w; simpl; try done.
  - apply Qeq_bool_comm.
  - apply bool_decide_ext. naive_solver.
Qed.

Lemma py_eq_trans (u v w : pyval) :
  py_eq u v = true → py_eq v w = true → py_eq u w = true.
Proof.
  destruct u, v, w; simpl; try done.
  - apply Qeq_bool_trans.
  - intros ->%bool_decide_eq_true ->%bool_decide_eq_true.
    by apply bool_decide_eq_true.
Qed.

Lemma in_set_spec (v : pyval) (s : list pyval) :
  in_set v s = true ↔ ∃ w, w ∈ s ∧ py_eq v w = true.
Proof.
  unfold in_set. rewrite existsb_exists.
  setoid_rewrite list_elem_of_In. done.
Qed.

Lemma in_set_add (v c : pyval) (s : list pyval) :
  in_set v (set_add c s) = true ↔ in_set v s = true ∨ py_eq v c = true.
Proof.
  unfold set_add. destruct (in_set c s) eqn:Hc.
  - split; [by left|]. intros [?|Hvc]; [done|].
    apply in_set_spec in Hc as (w & Hw & Hcw). apply in_set_spec.
    exists w. split; [done|]. by eapply py_eq_trans.
  - rewrite !in_set_spec. setoid_rewrite elem_of_app.
    setoid_rewrite list_elem_of_singleton. naive_solver.
Qed.

Lemma context_loop_sublist (docs : list Document) (added : list pyval) :
  context_loop docs added `sublist_of` docs.
Proof.
  revert added. induction docs as [|d docs IH]; intros added; simpl.
  - constructor.
  - destruct (truthy _ && negb _); [by apply sublist_skip|].
    by apply sublist_cons.
Qed.

Lemma context_loop_elems (docs : list Document) (added : list pyval) d :
  d ∈ context_loop docs added →
  truthy (chunk_id_of d) = true ∧ in_set (chunk_id_of d) added = false.
Proof.
  revert added. induction docs as [|d0 docs IH]; intros added; simpl.
  - intros Hin. by apply elem_of_nil in Hin.
  - destruct (truthy (chunk_id_of d0)) eqn:Ht; simpl; [|by apply IH].
    destruct (in_set (chunk_id_of d0) added) eqn:Hs; simpl; [by apply IH|].
    intros [->|Hin]%elem_of_cons; [done|].
    destruct (IH _ Hin) as [Htd Hnew]. split; [done|].
    destruct (in_set (chunk_id_of d) added) eqn:Hd; [|done].
    rewrite <- Hnew. symmetry. apply in_set_add. by left.
Qed.

Lemma context_loop_distinct (docs : list Document) (added : list pyval) :
  StronglySorted
    (λ a b, py_eq (chunk_id_of a) (chunk_id_of b) = false)
    (context_loop docs added).
Proof.
  revert added. induction docs as [|d0 docs IH]; intros added; simpl.
  - constructor.
  - destruct (truthy (chunk_id_of d0) && negb (in_set (chunk_id_of d0) added));
      [|by apply IH].
    constructor; [by apply IH|]. apply Forall_forall. intros d Hd.
    apply context_loop_elems in Hd as [_ Hnew].
    destruct (py_eq (chunk_id_of d0) (chunk_id_of d)) eqn:Heq; [|done].
    rewrite <- Hnew. symmetry. apply in_set_add. right.
    by rewrite py_eq_sym.
Qed.

Lemma context_loop_covers (docs : list Document) (added : list pyval) d :
  d ∈ docs → truthy (chunk_id_of d) = true →
  in_set (chunk_id_of d) added = true ∨
  ∃ d', d' ∈ context_loop docs added ∧
        py_eq (chunk_id_of d) (chunk_id_of d') = true.
Proof.
  revert added. induction docs as [|d0 docs IH]; intros added Hin Ht.
  - by apply elem_of_nil in Hin.
  - simpl. destruct (truthy (chunk_id_of d0)) eqn:Ht0; simpl.
    + destruct (in_set (chunk_id_of d0) added) eqn:Hs; simpl.
      * apply elem_of_cons in Hin as [->|Hin]; [by left|]. by apply IH.
      * apply elem_of_cons in Hin as [->|Hin].
        -- right. exists d0. split; [by left | apply py_eq_refl].
        -- destruct (IH (set_add (chunk_id_of d0) added) Hin Ht)
             as [Hadd|(d' & Hd' & Heq)].
           ++ apply in_set_add in Hadd as [?|Heq]; [by left|].
              right. exists d0. split; [by left | done].
           ++ right. exists d'. split; [by right | done].
    + apply elem_of_cons in Hin as [->|Hin]; [congruence|]. by apply IH.
Qed.

Lemma truthy_py_eq (v w : pyval) :
  py_eq v w = true → truthy v = truthy w.
Proof.
  destruct v as [|x|a], w as [|y|b]; simpl; try done.
  - intros Hxy%Qeq_bool_iff. f_equal.
    destruct (Qeq_bool x 0) eqn:Hx, (Qeq_bool y 0) eqn:Hy; try done.
    + apply Qeq_bool_iff in Hx. apply Qeq_bool_neq in Hy.
      destruct Hy. by rewrite <- Hxy.
    + apply Qeq_bool_iff in Hy. apply Qeq_bool_neq in Hx.
      destruct Hx. by rewrite Hxy.
  - by intros ->%bool_decide_eq_true.
Qed.

Lemma in_set_py_eq (v w : pyval) (s : list pyval) :
  py_eq v w = true → in_set v s = in_set w s.
Proof.
  intros Hvw.
  destruct (in_set v s) eqn:Hv, (in_set w s) eqn:Hw; try done.
  - apply in_set_spec in Hv as (u & Hu & Hvu).
    assert (in_set w s = true) as Hw'; [|congruence].
    apply in_set_spec. exists u. split; [done|].
    rewrite py_eq_sym in Hvw. by eapply py_eq_trans.
  - apply in_set_spec in Hw as (u & Hu & Hwu).
    assert (in_set v s = true) as Hv'; [|congruence].
    apply in_set_spec. exists u. split; [done|]. by eapply py_eq_trans.
Qed.

(** The loop keeps exactly the chunks at the places [idxs]: those with a
    truthy id that is not in the set and that no earlier chunk has. *)
Lemma context_loop_first (docs : list Document) (added : list pyval) :
  ∃ idxs,
    StronglySorted lt idxs ∧
    Forall2 (λ i d, docs !! i = Some d) idxs (context_loop docs added) ∧
    ∀ i, i ∈ idxs ↔
      ∃ d, docs !! i = Some d ∧ truthy (chunk_id_of d) = true ∧
           in_set (chunk_id_of d) added = false ∧
           ∀ j d', j < i → docs !! j = Some d' →
                   py_eq (chunk_id_of d') (chunk_id_of d) = false.
Proof.
  revert added. induction docs as [|d0 docs IH]; intros added.
  - exists []. split_and!; [constructor | constructor |].
    intros i. split; [by intros ?%elem_of_nil | by intros (d & ? & _)].
  - cbn [context_loop].
    destruct (truthy (chunk_id_of d0) && negb (in_set (chunk_id_of d0) added))
      eqn:Hkeep.
    + apply andb_true_iff in Hkeep as [Ht0 Hs0%negb_true_iff].
      destruct (IH (set_add (chunk_id_of d0) added))
        as (idxs & Hsorted & Hat & Hiff).
      exists (0 :: (S <$> idxs)). split_and!.
      * constructor.
        -- apply (StronglySorted_fmap S lt); [|done]. intros x y. lia.
        -- apply Forall_fmap, Forall_true. intros x. simpl. lia.
      * constructor; [done|]. by apply Forall2_fmap_l.
      * intros [|i].
        -- split; [|intros _; by left]. intros _. exists d0.
           split_and!; [done | done | done |]. intros j d' Hj. lia.
        -- rewrite elem_of_cons, list_elem_of_fmap. split.
           ++ intros [?|(i' & [= <-] & Hi)]; [done|].
              apply Hiff in Hi as (d & Hd & Ht & Hs & Hfirst).
              exists d. split_and!; [done | done | |].
              ** destruct (in_set (chunk_id_of d) added) eqn:Hin; [|done].
                 rewrite <- Hs. symmetry. apply in_set_add. by left.
              ** intros [|j] d' Hj Hd'.
                 --- injection Hd' as <-.
                     destruct (py_eq (chunk_id_of d0) (chunk_id_of d))
                       eqn:Heq; [|done].
                     rewrite <- Hs. symmetry. apply in_set_add. right.
                     by rewrite py_eq_sym.
                 --- apply (Hfirst j d'); [lia | done].
           ++ intros (d & Hd & Ht & Hs & Hfirst). right. exists i.
              split; [done|]. apply Hiff. exists d.
              split_and!; [done | done | |].
              ** destruct (in_set (chunk_id_of d)
                             (set_add (chunk_id_of d0) added)) eqn:Hin;
                   [|done].
                 apply in_set_add in Hin as [Hin|Heq]; [congruence|].
                 rewrite py_eq_sym in Heq.
                 rewrite (Hfirst 0 d0) in Heq; [done | lia | done].
              ** intros j d' Hj Hd'. apply (Hfirst (S j) d'); [lia | done].
    + destruct (IH added) as (idxs & Hsorted & Hat & Hiff).
      exists (S <$> idxs). split_and!.
      * apply (StronglySorted_fmap S lt); [|done]. intros x y. lia.
      * by apply Forall2_fmap_l.
      * intros [|i].
        -- rewrite list_elem_of_fmap. split; [by intros (? & ? & _)|].
           intros (d & [= <-] & Ht & Hs & _).
           by rewrite Ht, Hs in Hkeep.
        -- rewrite list_elem_of_fmap. split.
           ++ intros (i' & [= <-] & Hi).
              apply Hiff in Hi as (d & Hd & Ht & Hs & Hfirst).
              exists d. split_and!; [done | done | done |].
              intros [|j] d' Hj Hd'; [|apply (Hfirst j d'); [lia | done]].
              injection Hd' as <-.
              destruct (py_eq (chunk_id_of d0) (chunk_id_of d)) eqn:Heq;
                [|done].
              rewrite (truthy_py_eq _ _ Heq), Ht,
                (in_set_py_eq _ _ added Heq), Hs in Hkeep. done.
           ++ intros (d & Hd & Ht & Hs & Hfirst). exists i.
              split; [done|]. apply Hiff. exists d.
              split_and!; [done | done | done |].
              intros j d' Hj Hd'. apply (Hfirst (S j) d'); [lia | done].
Qed.

(** X6: [search_with_context] returns, in the store's order, the first
    chunk of every distinct truthy [chunk_id] among the chunks that
    [similarity_search] found, and nothing else: the returned chunks are
    those at the places where a truthy id occurs for the first time (up to
    [==]); a chunk without a [chunk_id] (or with an empty one) is dropped, no
    two returned chunks have equal ids, and when no chunk carries a
    [chunk_id] the result is empty whatever the store found. *)
Theorem X6_search_with_context (self : KoreanVectorStore.t)
    (query : string) (k : nat) (res : list Document) :
  search_with_context self query k = Ok res →
  ∃ docs,
    KoreanVectorStore.similarity_search self query k = Ok docs ∧
    res `sublist_of` docs ∧
    (∃ idxs,
       StronglySorted lt idxs ∧
       Forall2 (λ i d, docs !! i = Some d) idxs res ∧
       ∀ i, i ∈ idxs ↔
         ∃ d, docs !! i = Some d ∧ truthy (chunk_id_of d) = true ∧
              ∀ j d', j < i → docs !! j = Some d' →
                      py_eq (chunk_id_of d') (chunk_id_of d) = false) ∧
    (∀ d, d ∈ res →
       ∃ v, metadata d !! "chunk_id" = Some v ∧ truthy v = true) ∧
    (∀ i j d1 d2, res !! i = Some d1 → res !! j = Some d2 →
       py_eq (chunk_id_of d1) (chunk_id_of d2) = true → i = j) ∧
    (∀ d, d ∈ docs → truthy (chunk_id_of d) = true →
       ∃ d', d' ∈ res ∧ py_eq (chunk_id_of d) (chunk_id_of d') = true) ∧
    ((∀ d, d ∈ docs → metadata d !! "chunk_id" = None) → res = []).
Proof.
  unfold search_with_context. intros H. bind_inv H. injection H as <-.
  exists a. split_and!.
  - done.
  - apply context_loop_sublist.
  - destruct (context_loop_first a []) as (idxs & Hsorted & Hat & Hiff).
    exists idxs. split_and!; [done | done |]. intros i. rewrite Hiff.
    split; intros (d & Hd & Ht & Hrest); exists d; [naive_solver|].
    by split_and!.
  - intros d [Ht _]%context_loop_elems. unfold chunk_id_of, dict_get_default in Ht.
    destruct (metadata d !! "chunk_id") as [v|]; [by exists v|done].
  - intros i j d1 d2 Hi Hj Heq.
    pose proof (context_loop_distinct a []) as Hsorted.
    destruct (decide (i = j)) as [|Hne]; [done|]. exfalso.
    destruct (decide (i < j)) as [Hlt|Hge].
    + rewrite <- (take_drop j (context_loop a [])) in Hsorted.
      apply sorting.StronglySorted_app in Hsorted as (Hcross & _ & _).
      rewrite (Hcross d1 d2) in Heq; [done | |].
      * apply list_elem_of_lookup. exists i. by rewrite lookup_take_lt.
      * apply list_elem_of_lookup. exists 0.
        by rewrite lookup_drop, Nat.add_0_r.
    + rewrite <- (take_drop i (context_loop a [])) in Hsorted.
      apply sorting.StronglySorted_app in Hsorted as (Hcross & _ & _).
      rewrite py_eq_sym, (Hcross d2 d1) in Heq; [done | |].
      * apply list_elem_of_lookup. exists j. rewrite lookup_take_lt; [done|lia].
      * apply list_elem_of_lookup. exists 0.
        by rewrite lookup_drop, Nat.add_0_r.
  - intros d Hd Ht.
    by destruct (context_loop_covers a [] d Hd Ht) as [?|?].
  - intros Hnone. destruct (context_loop a []) as [|d res] eqn:Hres; [done|].
    assert (d ∈ context_loop a []) as Hd by (rewrite Hres; by left).
    pose proof (elem_of_sublist _ _ _ Hd (context_loop_sublist a [])) as Hda.
    apply context_loop_elems in Hd as [Ht _].
    unfold chunk_id_of, dict_get_default in Ht. by rewrite (Hnone d Hda) in Ht.
Qed.

Lemma zip_documents_lookup docs metas dists (i : nat) (d : Document) :
  KoreanVectorStore.zip_documents docs metas dists !! i = Some d ↔
    ∃ md x, docs !! i = Some (page_content d) ∧ metas !! i = Some md ∧
            dists !! i = Some x ∧
            metadata d = <["distance" := PNum x]> md.
Proof.
  revert metas dists i.
  induction docs as [|doc docs IH]; intros metas dists i.
  - simpl. split; [done|]. by intros (? & ? & ? & _).
  - destruct metas as [|md metas].
    { simpl. split; [done|]. by intros (? & ? & _ & ? & _). }
    destruct dists as [|x dists].
    { simpl. split; [done|]. by intros (? & ? & _ & _ & ? & _). }
    simpl. destruct i as [|i]; simpl.
    + split.
      * intros [= <-]. by exists md, x.
      * intros (md' & x' & [= Hd] & [= <-] & [= <-] & Hmd).
        destruct d. simpl in *. by subst.
    + apply IH.
Qed.

Lemma zip_documents_length docs metas dists :
  length (KoreanVectorStore.zip_documents docs metas dists)
  = length docs `min` (length metas `min` length dists).
Proof.
  revert metas dists.
  induction docs as [|doc docs IH]; intros [|md metas] [|x dists]; simpl;
    try done.
  by rewrite IH.
Qed.

(** X7: [similarity_search] returns the chunks of the first row of the
    store's answer in the store's order, as many as the shortest of the
    document, metadata and distance rows (the distance row counts as full
    when the field is missing); every chunk keeps its text and its metadata,
    except that ['distance'] is set to the reported distance, replacing any
    value the store had under that key. *)
Theorem X7_similarity_search_rows (self : KoreanVectorStore.t)
    (query : string) (k : nat) (r : KoreanVectorStore.QueryResult)
    (docs : list Document) :
  KoreanVectorStore.collection_query self query k = Ok r →
  KoreanVectorStore.similarity_search self query k = Ok docs →
  ∃ docs0 metas0 dists0,
    docs0 = default [] (head (KoreanVectorStore.q_documents r)) ∧
    metas0 = default [] (head (KoreanVectorStore.q_metadatas r)) ∧
    dists0 = match KoreanVectorStore.q_distances r with
             | Some ds => default [] (head ds)
             | None => replicate (length docs0) 0%Q
             end ∧
    length docs = length docs0 `min` (length metas0 `min` length dists0) ∧
    ∀ i d, docs !! i = Some d ↔
      ∃ md x, docs0 !! i = Some (page_content d) ∧
              metas0 !! i = Some md ∧ dists0 !! i = Some x ∧
              metadata d = <["distance" := PNum x]> md.
Proof.
  intros Hr Hdocs.
  assert (docs = KoreanVectorStore.zip_documents
            (default [] (head (KoreanVectorStore.q_documents r)))
            (default [] (head (KoreanVectorStore.q_metadatas r)))
            (match KoreanVectorStore.q_distances r with
             | Some ds => default [] (head ds)
             | None =>
                 replicate
                   (length (default []
                              (head (KoreanVectorStore.q_documents r))))
                   0%Q
             end)) as ->.
  { unfold KoreanVectorStore.similarity_search in Hdocs.
    rewrite Hr in Hdocs. cbn [mbind result_bind] in Hdocs.
    destruct (KoreanVectorStore.q_documents r) as [|[|doc docs0] rest].
    - by injection Hdocs as <-.
    - by injection Hdocs as <-.
    - bind_inv Hdocs. bind_inv Hdocs. injection Hdocs as <-.
      apply index_Ok in Ha. rewrite <- head_lookup in Ha. rewrite Ha.
      destruct (KoreanVectorStore.q_distances r) as [ds|].
      + apply index_Ok in Ha0. rewrite <- head_lookup in Ha0.
        by rewrite Ha0.
      + by injection Ha0 as <-. }
  eexists _, _, _. split_and!; [done | done | done | |].
  - apply zip_documents_length.
  - intros i d. apply zip_documents_lookup.
Qed.

Lemma count_up_total (v : pyval) (d : list (pyval * nat)) :
  sum_list (count_up v d).*2 = S (sum_list d.*2).
Proof.
  induction d as [|[k n] d IH]; simpl; [done|].
  destruct (py_eq k v); csimpl; [lia|]. rewrite IH. lia.
Qed.

Lemma count_up_positive (v : pyval) (d : list (pyval * nat)) :
  Forall (λ kn, 1 ≤ kn.2) d → Forall (λ kn, 1 ≤ kn.2) (count_up v d).
Proof.
  induction 1 as [|[k n] d Hk Hd IH]; simpl.
  - repeat constructor.
  - destruct (py_eq k v); constructor; simpl in *; auto; lia.
Qed.

Lemma count_types_spec (metadatas : list (gmap string pyval)) :
  sum_list (count_types metadatas).*2
    = length (filter (λ md, is_Some (md !! "chunk_type")) metadatas) ∧
  Forall (λ kn, 1 ≤ kn.2) (count_types metadatas).
Proof.
  unfold count_types.
  induction metadatas as [|md mds [IHsum IHpos]] using rev_ind.
  - split; [done | constructor].
  - rewrite foldl_app, filter_app, length_app. simpl.
    rewrite filter_cons, filter_nil.
    destruct (md !! "chunk_type") as [v|] eqn:Hv.
    + rewrite decide_True by done. split.
      * rewrite count_up_total, IHsum. simpl. lia.
      * by apply count_up_positive.
    + rewrite decide_False by (by intros [? ?]). split; [|done].
      rewrite IHsum. simpl. lia.
Qed.

Lemma set_add_distinct (v : pyval) (s : list pyval) :
  StronglySorted (λ a b, py_eq a b = false) s →
  StronglySorted (λ a b, py_eq a b = false) (set_add v s).
Proof.
  intros Hs. unfold set_add. destruct (in_set v s) eqn:Hv; [done|].
  apply sorting.StronglySorted_app. split_and!; [|done|repeat constructor].
  intros a b Ha ->%list_elem_of_singleton.
  destruct (py_eq a v) eqn:Hab; [|done].
  rewrite <- Hv. symmetry. apply in_set_spec. exists a.
  split; [done|]. by rewrite py_eq_sym.
Qed.

Lemma elem_of_set_add (w v : pyval) (s : list pyval) :
  w ∈ set_add v s → w ∈ s ∨ w = v.
Proof.
  unfold set_add. destruct (in_set v s); [by left|].
  rewrite elem_of_app, list_elem_of_singleton. done.
Qed.

Lemma collect_spec (key : string) (metadatas : list (gmap string pyval)) :
  distinct_values_of key metadatas (collect key metadatas).
Proof.
  unfold collect, distinct_values_of.
  induction metadatas as [|md mds (IHd & IHs & IHc)] using rev_ind.
  - split_and!; [constructor | |].
    + intros w Hw. by apply elem_of_nil in Hw.
    + intros md v Hmd. by apply elem_of_nil in Hmd.
  - rewrite foldl_app. simpl. destruct (md !! key) as [v|] eqn:Hv.
    + split_and!.
      * by apply set_add_distinct.
      * intros w [Hw| ->]%elem_of_set_add.
        -- destruct (IHs w Hw) as (md' & ? & ?). exists md'.
           split; [|done]. apply elem_of_app. by left.
        -- exists md. split; [|done]. apply elem_of_app. right. by left.
      * intros md' v' [Hmd'| ->%list_elem_of_singleton]%elem_of_app Hv'.
        -- apply in_set_add. left. by eapply IHc.
        -- apply in_set_add. right. rewrite Hv in Hv'. injection Hv' as <-.
           apply py_eq_refl.
    + split_and!; [done | |].
      * intros w Hw. destruct (IHs w Hw) as (md' & ? & ?). exists md'.
        split; [|done]. apply elem_of_app. by left.
      * intros md' v' [Hmd'| ->%list_elem_of_singleton]%elem_of_app Hv'.
        -- by eapply IHc.
        -- congruence.
Qed.

(** X8: the statistics count what they name: the chunk-type counters are
    all positive and add up to the number of chunks that have a
    ['chunk_type'], and [unique_sections] and [unique_pages] are the numbers
    of distinct values (up to [==]) found under ['section'] and ['page'];
    chunks without the key are not counted. *)
Theorem X8_statistics (self : KoreanVectorStore.t) (st : Statistics) :
  get_statistics self = Some st →
  ∃ data,
    KoreanVectorStore.collection_get self = Some data ∧
    total_documents st = length (KoreanVectorStore.g_ids data) ∧
    sum_list (chunk_types st).*2
      = length (filter (λ md, is_Some (md !! "chunk_type"))
                       (KoreanVectorStore.g_metadatas data)) ∧
    Forall (λ kn, 1 ≤ kn.2) (chunk_types st) ∧
    (∃ sections,
       unique_sections st = length sections ∧
       distinct_values_of "section"
         (KoreanVectorStore.g_metadatas data) sections) ∧
    (∃ pages,
       unique_pages st = length pages ∧
       distinct_values_of "page"
         (KoreanVectorStore.g_metadatas data) pages).
Proof.
  unfold get_statistics.
  destruct (KoreanVectorStore.collection_get self) as [data|]; [|done].
  intros [= <-]. exists data. simpl.
  destruct (count_types_spec (KoreanVectorStore.g_metadatas data)).
  split_and!; try done.
  - eexists. split; [done | apply collect_spec].
  - eexists. split; [done | apply collect_spec].
Qed.
End StoreReadsFacts.

(** ** Ingestion *)
Section IngestionFacts.
Import Text Ingestion.
Context {E : Type} (encode : list string → list E).

Lemma range_step_bounds (n b j : nat) :
  0 < b → j < (n + (b - 1)) / b → j * b < n.
Proof.
  intros Hb Hj.
  pose proof (Nat.div_mod_eq (n + (b - 1)) b) as Hdm.
  pose proof (Nat.mod_upper_bound (n + (b - 1)) b) as Hub. nia.
Qed.

Lemma range_step_covers (n b : nat) :
  0 < b → n ≤ (n + (b - 1)) / b * b.
Proof.
  intros Hb.
  pose proof (Nat.div_mod_eq (n + (b - 1)) b) as Hdm.
  pose proof (Nat.mod_upper_bound (n + (b - 1)) b) as Hub. nia.
Qed.

(** The slices cut at the multiples of [b] below [n] rebuild the first [n]
    elements. *)
Lemma batches_concat {A} (l : list A) (n b : nat) :
  0 < b →
  concat ((λ i, slice l i ((i + b) `min` n)) <$> range_step n b)
  = take n l.
Proof.
  intros Hb. unfold range_step. rewrite <- list_fmap_compose.
  assert (∀ q, q ≤ (n + (b - 1)) / b →
            concat ((λ j, slice l (j * b) ((j * b + b) `min` n))
                    <$> seq 0 q)
            = take ((q * b) `min` n) l) as Hprefix.
  { induction q as [|q IH]; intros Hq; [done|].
    rewrite seq_S, fmap_app, concat_app, IH by lia. simpl.
    rewrite app_nil_r. unfold slice.
    pose proof (range_step_bounds n b q Hb) as Hlt.
    rewrite (Nat.min_l (q * b) n) by lia.
    rewrite take_take_drop. f_equal. lia. }
  change (concat ((λ j, slice l (j * b) ((j * b + b) `min` n))
                  <$> seq 0 ((n + (b - 1)) / b)) = take n l).
  rewrite (Hprefix _ (Nat.le_refl _)).
  f_equal. pose proof (range_step_covers n b Hb). lia.
Qed.

Lemma slice_length {A} (l : list A) (a b : nat) :
  b ≤ length l → length (slice l a b) = b - a.
Proof. intros Hb. unfold slice. rewrite length_take, length_drop. lia. Qed.

Lemma add_documents_calls (texts : list string)
    (metadatas : list (gmap string pyval)) :
  add_documents encode texts metadatas =
    (λ i,
       {| a_embeddings :=
            get_embeddings encode
              (slice texts i ((i + batch_size) `min` length texts));
          a_documents :=
            slice texts i ((i + batch_size) `min` length texts);
          a_metadatas :=
            slice metadatas i ((i + batch_size) `min` length texts);
          a_ids :=
            slice (doc_id <$> seq 0 (length texts)) i
                  ((i + batch_size) `min` length texts) |})
    <$> range_step (length texts) batch_size.
Proof. destruct texts; [|done]. reflexivity. Qed.

(** X9: [add_documents] hands every text to the collection exactly once
    and in order, in [ceil(n / 50)] calls of 1 to 50 documents each; the
    ids are [doc_0000], [doc_0001], ... by position, the embeddings of a
    call are those of its preprocessed texts, and the metadata beyond the
    number of texts are ignored.  With no text it makes no call. *)
Theorem X9_add_documents_batches (texts : list string)
    (metadatas : list (gmap string pyval)) :
  concat (a_documents <$> add_documents encode texts metadatas) = texts ∧
  concat (a_ids <$> add_documents encode texts metadatas)
    = doc_id <$> seq 0 (length texts) ∧
  concat (a_metadatas <$> add_documents encode texts metadatas)
    = take (length texts) metadatas ∧
  length (add_documents encode texts metadatas)
    = (length texts + 49) / 50 ∧
  Forall (λ c, 1 ≤ length (a_documents c) ≤ 50 ∧
               length (a_ids c) = length (a_documents c) ∧
               a_embeddings c
                 = encode (QueryText.preprocess_text <$> a_documents c))
         (add_documents encode texts metadatas).
Proof.
  rewrite add_documents_calls. split_and!.
  - rewrite <- list_fmap_compose. unfold compose. cbn [a_documents].
    rewrite (batches_concat texts (length texts) batch_size) by (cbv; lia).
    by rewrite firstn_all.
  - rewrite <- list_fmap_compose. unfold compose. cbn [a_ids].
    rewrite (batches_concat _ (length texts) batch_size) by (cbv; lia).
    apply take_ge. by rewrite length_fmap, length_seq.
  - rewrite <- list_fmap_compose. unfold compose. cbn [a_metadatas].
    by rewrite (batches_concat metadatas (length texts) batch_size)
      by (cbv; lia).
  - unfold range_step, batch_size. by rewrite !length_fmap, length_seq.
  - apply Forall_fmap, Forall_forall. intros i Hi. simpl.
    unfold range_step in Hi. apply list_elem_of_fmap in Hi as (j & -> & Hj).
    apply elem_of_seq in Hj.
    pose proof (range_step_bounds (length texts) batch_size j) as Hlt.
    unfold batch_size in *.
    rewrite !slice_length
      by (rewrite ?length_fmap, ?length_seq; lia).
    split_and!; [lia | lia | done | done].
Qed.

Lemma digit_char_value (d : N) :
  (d < 10)%N → (Ascii.N_of_ascii (pretty_N_char d) - 48)%N = d.
Proof.
  intros Hd.
  assert (d = 0 ∨ d = 1 ∨ d = 2 ∨ d = 3 ∨ d = 4 ∨ d = 5 ∨ d = 6 ∨ d = 7
          ∨ d = 8 ∨ d = 9)%N as Hcases by lia.
  naive_solver.
Qed.

Lemma pretty_N_go_value (x : N) :
  ∃ m : N, ∀ acc s,
    digits_value_from acc (pretty_N_go x s)
    = digits_value_from (acc * m + x)%N s.
Proof.
  induction (N.lt_wf_0 x) as [x _ IH].
  destruct (decide (x = 0)%N) as [->|Hx].
  - exists 1%N. intros acc s. rewrite pretty_N_go_0. f_equal. lia.
  - destruct (IH (x `div` 10)%N) as [m Hm]; [apply N.div_lt; lia|].
    exists (m * 10)%N. intros acc s.
    rewrite pretty_N_go_step by lia. rewrite Hm. simpl.
    rewrite digit_char_value by (apply N.mod_lt; lia).
    f_equal. pose proof (N.div_mod x 10). lia.
Qed.

Lemma pretty_N_value (x : N) : digits_value (pretty x) = x.
Proof.
  unfold pretty, pretty_N, digits_value. case_decide as Hx; [by subst|].
  destruct (pretty_N_go_value x) as [m Hm]. rewrite Hm. simpl. lia.
Qed.

Lemma zfill_value (w : nat) (s : string) :
  digits_value (zfill w s) = digits_value s.
Proof.
  unfold zfill, digits_value.
  induction (w - String.length s) as [|n IH]; [done|]. simpl. exact IH.
Qed.

Lemma zfill_length (w : nat) (s : string) :
  w ≤ String.length (zfill w s).
Proof.
  unfold zfill.
  assert (∀ n, String.length (Nat.iter n (String (Ascii.ascii_of_nat 48)) s)
               = n + String.length s) as Hlen.
  { induction n as [|n IH]; [done|]. simpl. by rewrite IH. }
  rewrite Hlen. lia.
Qed.

Lemma doc_id_inj (i j : nat) : doc_id i = doc_id j → i = j.
Proof.
  unfold doc_id. intros Heq%(inj (String.app _)).
  apply (f_equal digits_value) in Heq. rewrite !zfill_value in Heq.
  unfold pretty, pretty_nat in Heq. rewrite !pretty_N_value in Heq. lia.
Qed.

(** X10: the id of a document is [doc_] followed by at least four digits
    that denote its position in the call, so the ids that one call of
    [add_documents] issues are pairwise distinct; numbering restarts with
    every call, so the ids of a call are a prefix of the ids of any call
    with at least as many texts. *)
Theorem X10_document_ids (texts texts' : list string)
    (metadatas metadatas' : list (gmap string pyval)) :
  (∀ i, ∃ digits,
     doc_id i = "doc_" +:+ digits ∧ 4 ≤ String.length digits ∧
     digits_value digits = N.of_nat i) ∧
  NoDup (concat (a_ids <$> add_documents encode texts metadatas)) ∧
  (length texts ≤ length texts' →
   concat (a_ids <$> add_documents encode texts metadatas)
     `prefix_of`
   concat (a_ids <$> add_documents encode texts' metadatas')).
Proof.
  assert (∀ (ts : list string) mds,
            concat (a_ids <$> add_documents encode ts mds)
            = doc_id <$> seq 0 (length ts)) as Hids.
  { intros ts mds. rewrite add_documents_calls.
    rewrite <- list_fmap_compose. unfold compose. cbn [a_ids].
    rewrite (batches_concat _ (length ts) batch_size) by (cbv; lia).
    apply take_ge. by rewrite length_fmap, length_seq. }
  split_and!.
  - intros i. exists (zfill 4 (pretty i)). split_and!.
    + done.
    + apply zfill_length.
    + rewrite zfill_value. unfold pretty, pretty_nat.
      apply pretty_N_value.
  - rewrite Hids. apply NoDup_fmap_2; [|apply NoDup_seq].
    intros i j. apply doc_id_inj.
  - intros Hle. rewrite !Hids.
    exists (doc_id <$> seq (length texts) (length texts' - length texts)).
    rewrite <- fmap_app, <- seq_app. do 2 f_equal. lia.
Qed.

Lemma slice_replicate {A} (x : A) (n a b : nat) :
  b ≤ n → slice (replicate n x) a b = replicate (b - a) x.
Proof.
  intros Hb. unfold slice. rewrite drop_replicate, take_replicate.
  f_equal. lia.
Qed.

(** X11: through the wrapper, a missing [metadatas] stores every document
    with an empty metadata dictionary, one per document of each call; what
    is sent otherwise (documents, ids, embeddings) does not depend on the
    metadata. *)
Theorem X11_wrapper_default_metadata (texts : list string)
    (metadatas : list (gmap string pyval)) :
  Forall (λ c, a_metadatas c = replicate (length (a_documents c)) ∅)
         (wrapper_add_documents encode texts None) ∧
  (λ c, (a_embeddings c, a_documents c, a_ids c))
    <$> wrapper_add_documents encode texts None
  = (λ c, (a_embeddings c, a_documents c, a_ids c))
    <$> add_documents encode texts metadatas.
Proof.
  unfold wrapper_add_documents. rewrite !add_documents_calls. split.
  - apply Forall_fmap, Forall_forall. intros i Hi. simpl.
    unfold range_step in Hi. apply list_elem_of_fmap in Hi as (j & -> & Hj).
    apply elem_of_seq in Hj.
    pose proof (range_step_bounds (length texts) batch_size j) as Hlt.
    unfold batch_size in *.
    rewrite slice_replicate, slice_length by lia. done.
  - by rewrite <- !list_fmap_compose.
Qed.
End IngestionFacts.

(** ** Text preparation *)
Section QueryTextFacts.
Import Text QueryText.

Lemma chars_app (a b : string) : chars (a +:+ b) = chars a ++ chars b.
Proof. induction a as [|c a IH]; simpl; [done|]. by rewrite IH. Qed.

Lemma chars_inj (a b : string) : chars a = chars b → a = b.
Proof.
  intros H. rewrite <- (String.string_of_list_ascii_of_string a),
    <- (String.string_of_list_ascii_of_string b). unfold chars in H.
  by rewrite H.
Qed.

Lemma append_assoc (a b c : string) : (a +:+ b) +:+ c = a +:+ (b +:+ c).
Proof. apply chars_inj. by rewrite !chars_app, app_assoc. Qed.

Lemma starts_with_spec (p s : string) :
  starts_with p s = true ↔ ∃ t, chars s = chars p ++ t.
Proof.
  revert s. induction p as [|a p IH]; intros s; simpl.
  - split; [|done]. intros _. by exists (chars s).
  - destruct s as [|b s]; simpl.
    + split; [done|]. by intros [t Ht].
    + rewrite andb_true_iff, bool_decide_eq_true, IH. split.
      * intros [-> [t Ht]]. exists t. by rewrite Ht.
      * intros [t [= -> Ht]]. split; [done|]. by exists t.
Qed.

Lemma contains_spec (sub s : string) :
  contains sub s = true ↔ ∃ pre post, chars s = pre ++ chars sub ++ post.
Proof.
  induction s as [|c s IH]; simpl.
  - rewrite orb_false_r, starts_with_spec. split.
    + intros [t Ht]. by exists [], t.
    + intros (pre & post & H). simpl in H.
      symmetry in H. apply app_eq_nil in H as [-> H].
      apply app_eq_nil in H as [H ->]. exists []. simpl.
      by rewrite H.
  - rewrite orb_true_iff, starts_with_spec, IH. split.
    + intros [[t Ht]|(pre & post & H)].
      * by exists [], t.
      * exists (c :: pre), post. simpl. by rewrite H.
    + intros ([|c' pre] & post & H).
      * left. by exists post.
      * right. injection H as -> H. by exists pre, post.
Qed.

Lemma contains_app_l (sub s t : string) :
  contains sub s = true → contains sub (s +:+ t) = true.
Proof.
  rewrite !contains_spec. intros (pre & post & H).
  exists pre, (post ++ chars t). by rewrite chars_app, H, <- !app_assoc.
Qed.

Lemma contains_app_r (sub t : string) : contains sub (t +:+ sub) = true.
Proof.
  apply contains_spec. exists (chars t), [].
  by rewrite chars_app, app_nil_r.
Qed.

(** Every step of [enhance_query] appends to the query built so far. *)
Lemma synonym_step_appends (enhanced synonym : string) :
  ∃ suffix, synonym_step enhanced synonym = enhanced +:+ suffix.
Proof.
  unfold synonym_step. destruct (negb _).
  - exists (" " +:+ synonym). done.
  - exists EmptyString. apply chars_inj. by rewrite chars_app, app_nil_r.
Qed.

Lemma synonyms_append (enhanced : string) (synonyms : list string) :
  ∃ suffix, foldl synonym_step enhanced synonyms = enhanced +:+ suffix.
Proof.
  revert enhanced. induction synonyms as [|x l IH]; intros enhanced; simpl.
  - exists EmptyString. apply chars_inj. by rewrite chars_app, app_nil_r.
  - destruct (synonym_step_appends enhanced x) as [s1 ->].
    destruct (IH (enhanced +:+ s1)) as [s2 ->].
    exists (s1 +:+ s2). apply append_assoc.
Qed.

Lemma key_step_appends (query enhanced : string) entry :
  ∃ suffix, key_step query enhanced entry = enhanced +:+ suffix.
Proof.
  unfold key_step. destruct (contains _ query).
  - apply synonyms_append.
  - exists EmptyString. apply chars_inj. by rewrite chars_app, app_nil_r.
Qed.

Lemma key_steps_append (query enhanced : string) table :
  ∃ suffix, foldl (key_step query) enhanced table = enhanced +:+ suffix.
Proof.
  revert enhanced. induction table as [|x l IH]; intros enhanced; simpl.
  - exists EmptyString. apply chars_inj. by rewrite chars_app, app_nil_r.
  - destruct (key_step_appends query enhanced x) as [s1 ->].
    destruct (IH (enhanced +:+ s1)) as [s2 ->].
    exists (s1 +:+ s2). apply append_assoc.
Qed.

Lemma synonyms_contained (enhanced : string) (synonyms : list string) x :
  x ∈ synonyms → contains x (foldl synonym_step enhanced synonyms) = true.
Proof.
  revert enhanced. induction synonyms as [|y l IH]; intros enhanced Hx.
  - by apply elem_of_nil in Hx.
  - simpl. apply elem_of_cons in Hx as [->|Hx]; [|by apply IH].
    destruct (synonyms_append (synonym_step enhanced y) l) as [s ->].
    apply contains_app_l. unfold synonym_step.
    destruct (contains y enhanced) eqn:Hy; simpl; [done|].
    rewrite <- append_assoc. apply contains_app_r.
Qed.

Lemma key_steps_quiet (query enhanced : string)
    (table : list (string * list string)) :
  (∀ entry, entry ∈ table → contains entry.1 query = false) →
  foldl (key_step query) enhanced table = enhanced.
Proof.
  revert enhanced. induction table as [|entry table IH];
    intros enhanced Hnone; [done|].
  simpl. unfold key_step at 2.
  rewrite (Hnone entry) by (by left). apply IH.
  intros entry' Hin. apply Hnone. by right.
Qed.

Lemma key_steps_contained (query enhanced : string)
    (table : list (string * list string)) key synonyms synonym :
  (key, synonyms) ∈ table → contains key query = true →
  synonym ∈ synonyms →
  contains synonym (foldl (key_step query) enhanced table) = true.
Proof.
  intros Hin Hkey Hsyn. revert enhanced.
  induction table as [|entry table IH]; intros enhanced.
  - by apply elem_of_nil in Hin.
  - simpl. apply elem_of_cons in Hin as [<-|Hin]; [|by apply IH].
    destruct (key_steps_append query
                (key_step query enhanced (key, synonyms)) table)
      as [s ->].
    apply contains_app_l. unfold key_step. simpl. rewrite Hkey.
    by apply synonyms_contained.
Qed.

(** X12: [enhance_query] only appends: the query is a prefix of the result.
    Without a key of the table in the query the result is the query itself;
    for every key that occurs in the query, each of its synonyms occurs in
    the result. *)
Theorem X12_enhance_query (table : list (string * list string))
    (query : string) :
  (∃ suffix, enhance_query_with table query = query +:+ suffix) ∧
  ((∀ entry, entry ∈ table → contains entry.1 query = false) →
   enhance_query_with table query = query) ∧
  (∀ key synonyms synonym,
     (key, synonyms) ∈ table → contains key query = true →
     synonym ∈ synonyms →
     contains synonym (enhance_query_with table query) = true).
Proof.
  unfold enhance_query_with. split_and!.
  - apply key_steps_append.
  - apply key_steps_quiet.
  - intros key synonyms synonym. apply key_steps_contained.
Qed.

Lemma replace_from_keeps (old new : string) (skip : nat) (s : string) :
  old ≠ EmptyString → starts_with old new = true →
  drop skip (chars s) `sublist_of` chars (replace_from old new skip s).
Proof.
  intros Hold Hnew. revert skip.
  induction s as [|c s IH]; intros skip; simpl.
  - by rewrite drop_nil.
  - destruct skip as [|n]; simpl; [|apply IH].
    destruct (starts_with old (String c s)) eqn:Hs.
    + destruct old as [|a old]; [done|]. simpl in Hs.
      apply andb_true_iff in Hs as [->%bool_decide_eq_true Hs].
      apply starts_with_spec in Hs as [t Ht].
      apply starts_with_spec in Hnew as [u Hu].
      rewrite chars_app, Hu. simpl. rewrite Nat.sub_0_r.
      apply sublist_skip. rewrite <- app_assoc.
      rewrite Ht at 1. apply sublist_app; [done|].
      etrans; [|apply sublist_inserts_l, (IH (String.length old))].
      rewrite Ht.
      assert (length (chars old) = String.length old) as <-.
      { clear. induction old as [|? ? IHo]; simpl; [done|]. by rewrite IHo. }
      by rewrite drop_app_length.
    + simpl. apply sublist_skip. apply (IH 0).
Qed.

Lemma abbreviation_steps_keep (table : list (string * string))
    (text : string) :
  Forall (λ rule, rule.1 ≠ EmptyString ∧ starts_with rule.1 rule.2 = true)
         table →
  chars text `sublist_of` chars (preprocess_text_with table text).
Proof.
  unfold preprocess_text_with. intros Htable. revert text.
  induction Htable as [|[eng kor] table [Heng Hkor] _ IH]; intros text;
    simpl; [done|].
  etrans; [|apply IH]. unfold abbreviation_step. simpl in *.
  destruct (contains eng text && negb (contains kor text)); [|done].
  unfold replace. destruct eng as [|a eng']; [done|].
  by apply (replace_from_keeps (String a eng') kor 0 text).
Qed.

(** X13: [preprocess_text] only inserts: the characters of the text remain,
    in order, in the result.  A text in which, for every abbreviation of the
    table, the abbreviation does not occur or its annotated form already
    occurs, is returned unchanged. *)
Theorem X13_preprocess_text (text : string) :
  chars text `sublist_of` chars (preprocess_text text) ∧
  ((∀ rule, rule ∈ abbreviation_map →
      contains rule.1 text = false ∨ contains rule.2 text = true) →
   preprocess_text text = text).
Proof.
  split.
  - apply abbreviation_steps_keep. unfold abbreviation_map.
    repeat (constructor; [by split|]). constructor.
  - unfold preprocess_text, preprocess_text_with.
    generalize abbreviation_map as table.
    induction table as [|rule table IH]; intros Hquiet; [done|]. simpl.
    assert (abbreviation_step text rule = text) as ->.
    { unfold abbreviation_step.
      destruct (Hquiet rule) as [-> | ->]; [by left | done |].
      by rewrite andb_false_r. }
    apply IH. intros rule' Hin. apply Hquiet. by right.
Qed.
End QueryTextFacts.

(** ** The tokenizer *)
Section TokenizerFacts.
Import Tokenizer.

Lemma span_spec (p : N → bool) (l : list N) :
  l = (span p l).1 ++ (span p l).2 ∧
  Forall (λ c, p c = true) (span p l).1.
Proof.
  induction l as [|c l [IHl IHp]]; simpl; [by split|].
  destruct (p c) eqn:Hc; [|by split].
  destruct (span p l) as [run rest]. simpl in *. split; [by f_equal|].
  by constructor.
Qed.

Lemma span_head (p : N → bool) (c : N) (l : list N) :
  p c = true → ∃ run, (span p (c :: l)).1 = c :: run.
Proof.
  intros Hc. simpl. rewrite Hc. destruct (span p l) as [run rest].
  by exists run.
Qed.

Lemma optional_spec (c : N) (l : list N) :
  l = (optional c l).1 ++ (optional c l).2 ∧
  ((optional c l).1 = [] ∨ (optional c l).1 = [c]).
Proof.
  destruct l as [|x l]; simpl; [by split; [|left]|].
  destruct (N.eqb_spec x c) as [->|]; simpl; split; auto.
Qed.

Lemma number_match_spec (c : N) (l : list N) :
  is_digit c = true →
  c :: l = (number_match (c :: l)).1 ++ (number_match (c :: l)).2 ∧
  number_shape (number_match (c :: l)).1.
Proof.
  intros Hc. unfold number_match.
  destruct (span_spec is_digit (c :: l)) as [H1 Hd1].
  destruct (span_head is_digit c l Hc) as [run Hrun].
  destruct (span is_digit (c :: l)) as [d1 r1]. simpl in *.
  destruct (optional_spec dot r1) as [H2 Hp].
  destruct (optional dot r1) as [p r2]. simpl in *.
  destruct (span_spec is_digit r2) as [H3 Hd2].
  destruct (span is_digit r2) as [d2 r3]. simpl in *.
  destruct (optional_spec percent r3) as [H4 Hq].
  destruct (optional percent r3) as [q r4]. simpl in *.
  split.
  - rewrite H1, H2, H3, H4 at 1. by rewrite <- !app_assoc.
  - exists d1, p, d2, q. split_and!; try done. by rewrite Hrun.
Qed.

(** One step of the scan: a match and the rest of the text, or a skipped
    character. *)
Lemma findall_step (fuel : nat) (c : N) (l : list N) :
  (is_word c = true ∧
   ∃ token rest, findall (S fuel) (c :: l) = token :: findall fuel rest ∧
                 c :: l = token ++ rest ∧ token_shape token) ∨
  (is_word c = false ∧ findall (S fuel) (c :: l) = findall fuel l).
Proof.
  unfold is_word. cbn [findall].
  destruct (is_hangul c) eqn:Hh.
  { left. split; [done|].
    destruct (span_spec is_hangul (c :: l)) as [H1 Hp].
    destruct (span_head is_hangul c l Hh) as [run Hrun].
    destruct (span is_hangul (c :: l)) as [token rest]. simpl in *.
    exists token, rest. split_and!; [done | done |].
    split; [by rewrite Hrun | by left]. }
  destruct (is_latin c) eqn:Hl.
  { left. split; [done|].
    destruct (span_spec is_latin (c :: l)) as [H1 Hp].
    destruct (span_head is_latin c l Hl) as [run Hrun].
    destruct (span is_latin (c :: l)) as [token rest]. simpl in *.
    exists token, rest. split_and!; [done | done |].
    split; [by rewrite Hrun | right; by left]. }
  destruct (is_digit c) eqn:Hd.
  { left. split; [done|].
    destruct (number_match_spec c l Hd) as [H1 Hshape].
    destruct (number_match (c :: l)) as [token rest]. simpl in *.
    exists token, rest. split_and!; [done | done |].
    split; [|right; by right].
    destruct Hshape as (d1 & p & d2 & q & -> & Hd1 & _).
    by destruct d1. }
  by right.
Qed.

Lemma findall_shape (fuel : nat) (l : list N) :
  Forall token_shape (findall fuel l).
Proof.
  revert l. induction fuel as [|fuel IH]; intros l; [constructor|].
  destruct l as [|c l]; [constructor|].
  destruct (findall_step fuel c l)
    as [(_ & token & rest & -> & _ & Hshape)|[_ ->]]; [|apply IH].
  constructor; [done | apply IH].
Qed.

Lemma findall_sublist (fuel : nat) (l : list N) :
  concat (findall fuel l) `sublist_of` l.
Proof.
  revert l. induction fuel as [|fuel IH]; intros l; [apply sublist_nil_l|].
  destruct l as [|c l]; [done|].
  destruct (findall_step fuel c l)
    as [(_ & token & rest & -> & -> & _)|[_ ->]].
  - simpl. apply sublist_app; [done | apply IH].
  - apply sublist_cons, IH.
Qed.

Lemma token_nonempty_length (token rest : list N) :
  token_shape token → length rest < length (token ++ rest).
Proof.
  intros [Hne _]. rewrite length_app. destruct token; [done|]. simpl. lia.
Qed.

Lemma findall_words (fuel : nat) (l : list N) :
  length l ≤ fuel →
  filter (λ c, is_word c = true) (concat (findall fuel l))
  = filter (λ c, is_word c = true) l.
Proof.
  revert l. induction fuel as [|fuel IH]; intros l Hfuel.
  { destruct l; [done | simpl in Hfuel; lia]. }
  destruct l as [|c l]; [done|].
  destruct (findall_step fuel c l)
    as [(_ & token & rest & -> & Heq & Hshape)|[Hc ->]].
  - rewrite Heq. simpl. rewrite !filter_app. f_equal. apply IH.
    pose proof (token_nonempty_length token rest Hshape) as Hlt.
    rewrite <- Heq in Hlt. simpl in *. lia.
  - rewrite filter_cons, decide_False by (by rewrite Hc).
    apply IH. simpl in Hfuel. lia.
Qed.

Lemma findall_no_words (fuel : nat) (l : list N) :
  Forall (λ c, is_word c = false) l → findall fuel l = [].
Proof.
  revert l. induction fuel as [|fuel IH]; intros l Hl; [done|].
  destruct Hl as [|c l Hc Hl]; [done|].
  destruct (findall_step fuel c l) as [(Hw & _)|[_ ->]]; [congruence|].
  by apply IH.
Qed.

Lemma sublist_concat {A} (l1 l2 : list (list A)) :
  l1 `sublist_of` l2 → concat l1 `sublist_of` concat l2.
Proof.
  induction 1 as [|x l1 l2 _ IH|x l1 l2 _ IH]; simpl.
  - done.
  - by apply sublist_app.
  - by apply sublist_inserts_l.
Qed.

(** X14: every token that [_tokenize] returns is non-empty and is a run of
    Hangul syllables, a run of lower-case Latin letters, or a number (digits,
    then an optional point, more digits and an optional percent sign); none
    is a stop word; and the tokens, laid end to end, follow the order of the
    lower-cased text. *)
Theorem X14_token_shapes (text : list N) :
  Forall (λ t, token_shape t ∧ t ∉ stopwords) (_tokenize text) ∧
  concat (_tokenize text) `sublist_of` lower text.
Proof.
  unfold _tokenize. split.
  - apply Forall_forall. intros t [Hstop Hin]%list_elem_of_filter.
    split; [|done].
    pose proof (findall_shape (length (lower text)) (lower text)) as Hall.
    rewrite Forall_forall in Hall. by apply Hall.
  - etrans; [|apply (findall_sublist (length (lower text)))].
    apply sublist_concat, sublist_filter.
Qed.

(** X15: the pattern loses no letter and no digit: the Hangul syllables,
    Latin letters and digits of the lower-cased text are exactly those of
    its matches, in order (only stop-word removal discards any); a text
    without such characters has no tokens. *)
Theorem X15_tokenizer_coverage (text : list N) :
  filter (λ c, is_word c = true)
         (concat (findall (length (lower text)) (lower text)))
  = filter (λ c, is_word c = true) (lower text) ∧
  (Forall (λ c, is_word c = false) (lower text) → _tokenize text = []).
Proof.
  split.
  - by apply findall_words.
  - intros Hnone. unfold _tokenize. by rewrite findall_no_words.
Qed.
End TokenizerFacts.

(** ** The caller: answers, sources and the conversation memory *)

Section PipelineFacts.
Import HybridSearch GeminiRAGPipeline.
Context (_tokenize : string → list string) (argsort : list Q → list nat).
Context (predict : string → result string).
Context (format_prompt : string → string → string → result string).
Context (str_of_exn : exn → string).

Local Abbreviation query :=
  (query _tokenize argsort predict format_prompt str_of_exn).

Lemma char_length_app (a b : string) :
  char_length (a +:+ b) = char_length a + char_length b.
Proof.
  induction a as [|c a IH]; simpl; [done|]. rewrite IH. lia.
Qed.

Lemma take_chars_length (n : nat) (text : string) :
  char_length (take_chars n text) ≤ n.
Proof.
  revert n. induction text as [|c text IH]; intros n; simpl; [lia|].
  destruct (is_continuation c) eqn:Hc; simpl.
  - rewrite Hc. apply IH.
  - destruct n as [|n]; simpl; [lia|]. rewrite Hc. specialize (IH n). lia.
Qed.

Lemma take_chars_all (n : nat) (text : string) :
  char_length text ≤ n → take_chars n text = text.
Proof.
  revert n. induction text as [|c text IH]; intros n; simpl; [done|].
  destruct (is_continuation c); simpl; intros Hn.
  - by rewrite IH.
  - destruct n as [|n]; [lia|]. rewrite IH; [done|lia].
Qed.

Lemma take_chars_prefix (n : nat) (text : string) :
  ∃ rest, text = take_chars n text +:+ rest.
Proof.
  revert n. induction text as [|c text IH]; intros n; simpl.
  - by exists EmptyString.
  - destruct (is_continuation c).
    + destruct (IH n) as [rest Hrest]. exists rest.
      change (String c text = String c (take_chars n text +:+ rest)).
      by rewrite <- Hrest.
    + destruct n as [|n]; [by eexists|].
      destruct (IH n) as [rest Hrest]. exists rest.
      change (String c text = String c (take_chars n text +:+ rest)).
      by rewrite <- Hrest.
Qed.

Lemma preview_length (text : string) :
  char_length (preview text) ≤ 303.
Proof.
  unfold preview. destruct (decide _) as [Hlong|Hshort]; [|lia].
  rewrite char_length_app.
  pose proof (take_chars_length 300 text).
  change (char_length "...") with 3. lia.
Qed.

(** A text of at most 300 characters is its own preview; a longer one is
    cut after its 300th character and marked. *)
Lemma preview_spec (text : string) :
  (char_length text ≤ 300 → preview text = text) ∧
  (300 < char_length text →
   ∃ kept rest, text = kept +:+ rest ∧ char_length kept = 300 ∧
                preview text = kept +:+ "...").
Proof.
  unfold preview. split; intros Hlen.
  - by rewrite decide_False by lia.
  - rewrite decide_True by lia.
    destruct (take_chars_prefix 300 text) as [rest Hrest].
    exists (take_chars 300 text), rest. split_and!; [done | | done].
    apply Nat.le_antisymm; [apply take_chars_length|].
    clear Hrest rest. revert Hlen. generalize 300.
    induction text as [|c text IH]; intros n; simpl; [lia|].
    destruct (is_continuation c) eqn:Hc; simpl; intros Hn.
    + rewrite Hc. by apply IH.
    + destruct n as [|n]; [lia|]. simpl. rewrite Hc.
      specialize (IH n). lia.
Qed.

Lemma sources_of_lookup (docs : list Document) (i : nat) (s : Source) :
  sources_of docs !! i = Some s →
  ∃ d, docs !! i = Some d ∧ s = source_of (S i) d.
Proof.
  unfold sources_of. rewrite list_lookup_imap.
  destruct (docs !! i) as [d|]; simpl; [|done].
  intros [= <-]. by exists d.
Qed.

Lemma search_length (self : HybridSearch.t) question k rerank docs :
  search _tokenize argsort self question k rerank = Ok docs →
  length docs ≤ k.
Proof.
  intros (dense & sparse & Hd & Hs & ->)%search_Ok.
  unfold _combine_results. rewrite length_fmap, length_take. lia.
Qed.

(** The two shapes of an outcome of [query]. *)
Lemma query_cases (self : GeminiRAGPipeline.t) (question : string) :
  (sources (query self question).1 = [] ∧
   (query self question).2 = memory self) ∨
  (∃ d docs prompt,
     retriever self = true ∧
     search _tokenize argsort (hybrid_search self) question 5 true
       = Ok (d :: docs) ∧
     format_prompt
       (String.concat (newline +:+ newline) (page_content <$> d :: docs))
       (chat_history_of (memory self)) question = Ok prompt ∧
     predict prompt = Ok (answer (query self question).1) ∧
     sources (query self question).1 = sources_of (d :: docs) ∧
     (query self question).2 =
       memory self
       ++ [{| msg_type := "human"; msg_content := question |};
           {| msg_type := "ai";
              msg_content := answer (query self question).1 |}]).
Proof.
  unfold GeminiRAGPipeline.query.
  destruct (retriever self); simpl; [|by left].
  destruct (search _ _ _ _ _ _) as [[|d docs]|e]; [by left | | by left].
  destruct (format_prompt _ _ _) as [prompt|e] eqn:Hf; [|by left].
  destruct (predict prompt) as [response|e] eqn:Hp; [|by left].
  right. exists d, docs, prompt. by split_and!.
Qed.

(** X16. [query] always answers: it returns at most five sources, numbered
    from 1 in the order of the search, each one the preview and the metadata
    of the document at its place; the preview is the text itself when it has
    at most 300 characters, and otherwise its first 300 characters followed
    by three dots (characters, not bytes: a Korean text of 101 to 300
    syllables is not cut).  Either it
    returns no source and leaves the memory as it was, or the search found
    documents, the answer is the model's reply to the prompt built from them,
    and the memory grew by exactly the question and that answer. *)
Theorem X16_query_outcome (self : GeminiRAGPipeline.t) (question : string) :
  let resp := (query self question).1 in
  let memory' := (query self question).2 in
  length (sources resp) ≤ 5 ∧
  (∀ i s, sources resp !! i = Some s →
     s_index s = S i ∧ char_length (s_content s) ≤ 303 ∧
     ∃ docs d,
       search _tokenize argsort (hybrid_search self) question 5 true
         = Ok docs ∧
       docs !! i = Some d ∧ s = source_of (S i) d ∧
       (char_length (page_content d) ≤ 300 →
        s_content s = page_content d) ∧
       (300 < char_length (page_content d) →
        ∃ kept rest, page_content d = kept +:+ rest ∧
                     char_length kept = 300 ∧
                     s_content s = kept +:+ "...")) ∧
  ((sources resp = [] ∧ memory' = memory self) ∨
   (sources resp ≠ [] ∧
    (∃ docs prompt,
       search _tokenize argsort (hybrid_search self) question 5 true
         = Ok docs ∧
       length (sources resp) = length docs ∧
       format_prompt
         (String.concat (newline +:+ newline) (page_content <$> docs))
         (chat_history_of (memory self)) question = Ok prompt ∧
       predict prompt = Ok (answer resp)) ∧
    memory' =
      memory self
      ++ [{| msg_type := "human"; msg_content := question |};
          {| msg_type := "ai"; msg_content := answer resp |}])).
Proof.
  intros resp memory'. subst resp memory'.
  destruct (query_cases self question)
    as [[Hs Hm]|(d & docs & prompt & Hr & Hsearch & Hf & Hp & Hs & Hm)].
  - rewrite Hs. split_and!; [simpl; lia | by intros i s; rewrite lookup_nil
      | by left].
  - rewrite Hs. split_and!.
    + unfold sources_of. rewrite length_imap.
      by apply search_length in Hsearch.
    + intros i s (d' & Hd' & ->)%sources_of_lookup. split_and!; [done | |].
      * apply preview_length.
      * exists (d :: docs), d'. split_and!; [done | done | done | |];
          apply preview_spec.
    + right. split_and!; [done | | done].
      exists (d :: docs), prompt. split_and!; [done | | done | done].
      unfold sources_of. by rewrite length_imap.
Qed.

Lemma range_two_steps (n : nat) :
  Text.range_step (S (S n)) 2 = 0 :: ((λ i, i + 2) <$> Text.range_step n 2).
Proof.
  unfold Text.range_step.
  replace ((S (S n) + (2 - 1)) / 2) with (S ((n + (2 - 1)) / 2)).
  - cbn [seq fmap list_fmap]. f_equal.
    rewrite <- fmap_S_seq, <- !list_fmap_compose.
    apply list_fmap_ext. intros _ j _. simpl. lia.
  - replace (S (S n) + (2 - 1)) with (n + (2 - 1) + 1 * 2) by lia.
    rewrite Nat.div_add by lia. lia.
Qed.

Lemma history_two_steps (q a : Message) (messages : list Message) :
  get_conversation_history (q :: a :: messages) =
    (msg_content q, msg_content a) :: get_conversation_history messages.
Proof.
  unfold get_conversation_history.
  change (length (q :: a :: messages)) with (S (S (length messages))).
  rewrite range_two_steps. cbn [omap list_omap].
  rewrite decide_True by lia. cbn. f_equal.
  apply list_omap_ext, Forall2_fmap_l, Forall_Forall2_diag, Forall_forall.
  intros x _. unfold compose. cbv beta.
  replace (x + 2) with (S (S x)) by lia.
  replace (S (S x) + 1) with (S (S (x + 1))) by lia.
  cbn [lookup list_lookup].
  repeat case_decide; done || lia.
Qed.

Lemma history_of_dialogue (pairs : list (string * string)) :
  get_conversation_history (dialogue pairs) = pairs.
Proof.
  induction pairs as [|[q a] pairs IH]; [done|].
  unfold dialogue in *. cbn [mbind list_bind app].
  change (([?x; ?y] ++ ?l)) with (x :: y :: l).
  rewrite history_two_steps. simpl. by rewrite IH.
Qed.

Lemma dialogue_app (pairs pairs' : list (string * string)) :
  dialogue (pairs ++ pairs') = dialogue pairs ++ dialogue pairs'.
Proof. unfold dialogue. apply bind_app. Qed.

(** X17. In a conversation whose memory holds the exchanges [pairs] (each
    question followed by its answer), the history read after a [query] is
    [pairs] followed by the new question and its answer when the query
    returned sources, and [pairs] unchanged when it returned none; the
    memory keeps the form of a list of exchanges. *)
Theorem X17_history_after_query (self : GeminiRAGPipeline.t)
    (question : string) (pairs : list (string * string)) :
  memory self = dialogue pairs →
  let resp := (query self question).1 in
  let pairs' :=
    pairs ++ match sources resp with
             | [] => []
             | _ => [(question, answer resp)]
             end in
  (query self question).2 = dialogue pairs' ∧
  get_conversation_history (query self question).2 = pairs'.
Proof.
  intros Hmem resp pairs'. subst resp pairs'.
  assert ((query self question).2 =
          dialogue (pairs ++ match sources (query self question).1 with
                             | [] => []
                             | _ => [(question,
                                      answer (query self question).1)]
                             end)) as ->; [|by rewrite history_of_dialogue].
  destruct (query_cases self question)
    as [[Hs Hm]|(d & docs & prompt & Hr & Hsearch & Hf & Hp & Hs & Hm)].
  - rewrite Hs, Hm, Hmem. by rewrite app_nil_r.
  - rewrite Hm, Hs, Hmem, dialogue_app. done.
Qed.

(** X18. [get_conversation_history] pairs the messages two by two: it
    returns half as many entries as there are messages (rounded down, a
    last unanswered message is left out), and its [j]-th entry holds the
    contents of the messages [2j] and [2j+1]. *)
Theorem X18_conversation_history (messages : list Message) :
  length (get_conversation_history messages) = length messages / 2 ∧
  ∀ j, get_conversation_history messages !! j =
         (q ← messages !! (2 * j);
          a ← messages !! (2 * j + 1);
          Some (msg_content q, msg_content a)).
Proof.
  induction messages as [messages IH] using (induction_ltof1 _ length).
  unfold ltof in IH.
  destruct messages as [|q [|a messages]].
  - split; [done|]. by intros j.
  - split; [done|]. intros [|j]; [done|]. simpl.
    by replace (j + S (j + 0)) with (S (j + j)) by lia.
  - rewrite history_two_steps.
    destruct (IH messages) as [Hlen Hget]; [simpl; lia|].
    split.
    + simpl length. rewrite Hlen.
      replace (S (S (length messages))) with (length messages + 1 * 2)
        by lia.
      rewrite Nat.div_add by lia. lia.
    + intros [|j]; [done|].
      replace (2 * S j) with (S (S (2 * j))) by lia.
      replace (S (S (2 * j)) + 1) with (S (S (2 * j + 1))) by lia.
      cbn [lookup list_lookup]. apply Hget.
Qed.

End PipelineFacts.

(** ** The further properties on sample data *)

Section MoreExamples.
Import HybridSearch Fusion Fixture Samples.

Local Abbreviation search := (search one_token argsort_stable).
Local Abbreviation _sparse_search := (_sparse_search one_token argsort_stable).
Local Abbreviation search_with_filter :=
  (search_with_filter one_token argsort_stable).

(** Lengths and slices count characters, not bytes: two Korean chunks of
    35 syllables (105 bytes) that differ in the last syllable have different
    keys and are both returned; the key of a text of 101 syllables is its
    first 100 syllables; a text of 101 syllables is its own preview, and one
    of 301 syllables is cut after 300. *)
Lemma characters_not_bytes :
  String.length korean_a = 105 ∧ char_length korean_a = 35 ∧
  doc_key {| page_content := korean_a; metadata := ∅ |} = korean_a ∧
  doc_key {| page_content := korean_a; metadata := ∅ |}
    ≠ doc_key {| page_content := korean_b; metadata := ∅ |} ∧
  search korean_engine "q" 2 true
    = Ok [{| page_content := korean_a;
             metadata := <["distance" := PNum 1]> (page 1) |};
          {| page_content := korean_b;
             metadata := <["distance" := PNum 3]> (page 2) |}] ∧
  doc_key {| page_content := syllables 101; metadata := ∅ |}
    = syllables 100 ∧
  GeminiRAGPipeline.preview (syllables 101) = syllables 101 ∧
  GeminiRAGPipeline.preview (syllables 301) = syllables 300 +:+ "...".
Proof.
  split_and!; try (vm_compute; reflexivity).
  intros H. vm_compute in H. discriminate.
Qed.

(** X1 on the two chunks: the sparse results come in descending order of
    score. *)
Lemma X1_sparse_results_ranked_witness :
  argsort_stable (get_scores (bm25 two_chunks_engine) (one_token "q"))
    ≡ₚ seq 0 (length (get_scores (bm25 two_chunks_engine)
                                  (one_token "q"))) ∧
  length (get_scores (bm25 two_chunks_engine) (one_token "q"))
    = length (documents two_chunks_engine) ∧
  ∃ res, _sparse_search two_chunks_engine "q" 6 = Ok res ∧
         length res ≤ 6 ∧
         StronglySorted (λ p q : Document * Q, q.2 <= p.2)%Q res.
Proof.
  assert (argsort_stable (get_scores (bm25 two_chunks_engine)
                                     (one_token "q"))
          ≡ₚ seq 0 (length (get_scores (bm25 two_chunks_engine)
                                        (one_token "q")))) as Hperm
    by (vm_compute; apply Permutation_swap).
  assert (StronglySorted
            (λ i j, default 0 (get_scores (bm25 two_chunks_engine)
                                 (one_token "q") !! i)
                    <= default 0 (get_scores (bm25 two_chunks_engine)
                                    (one_token "q") !! j))%Q
            (argsort_stable (get_scores (bm25 two_chunks_engine)
                                        (one_token "q")))) as Hsorted.
  { change (argsort_stable _) with [1; 0].
    repeat constructor. vm_compute. discriminate. }
  assert (length (get_scores (bm25 two_chunks_engine) (one_token "q"))
          = length (documents two_chunks_engine)) as Hlen by reflexivity.
  split; [exact Hperm|]. split; [exact Hlen|].
  exact (X1_sparse_results_ranked one_token argsort_stable
           two_chunks_engine "q" 6 Hperm Hsorted Hlen).
Defined.

(** X2 on the two chunks with the dense weight 1/2. *)
Lemma X2_combined_scores_bounded_witness :
  __init__ one_token (table_ranker [1 # 3; 0]%Q)
           (collection two_chunks two_chunks_ranking) (1 # 2)%Q
    = Ok two_chunks_engine ∧
  ∃ dense sparse,
    _dense_search two_chunks_engine "q" 6 = Ok dense ∧
    _sparse_search two_chunks_engine "q" 6 = Ok sparse ∧
    ∀ d c, (d, c) ∈ ranked two_chunks_engine dense sparse →
           (0 <= c)%Q ∧ (c <= 1)%Q.
Proof.
  assert (__init__ one_token (table_ranker [1 # 3; 0]%Q)
            (collection two_chunks two_chunks_ranking) (1 # 2)%Q
          = Ok two_chunks_engine) as Hbuilt by reflexivity.
  split; [exact Hbuilt|].
  destruct (_dense_search two_chunks_engine "q" 6) as [dense|e] eqn:Hd;
    [|vm_compute in Hd; discriminate].
  destruct (_sparse_search two_chunks_engine "q" 6) as [sparse|e] eqn:Hs;
    [|vm_compute in Hs; discriminate].
  exists dense, sparse. split; [reflexivity|]. split; [reflexivity|].
  eapply (X2_combined_scores_bounded one_token (table_ranker [1 # 3; 0]%Q)
            argsort_stable (collection two_chunks two_chunks_ranking)
            (1 # 2)%Q two_chunks_engine "q" 6 _ dense sparse Hbuilt).
  - vm_compute. discriminate.
  - vm_compute. discriminate.
  - reflexivity.
  - split; [reflexivity|]. intros ds [= <-]. split; [reflexivity|].
    intros row x ->%list_elem_of_singleton Hx.
    repeat (apply elem_of_cons in Hx as [->|Hx]); [done | done |].
    by apply elem_of_nil in Hx.
  - exact Hd.
  - exact Hs.
Defined.

(** X3 on the two chunks: both results are rows of the dense answer. *)
Lemma X3_results_are_candidates_witness :
  search two_chunks_engine "q" 2 true
    = Ok [{| page_content := "b";
             metadata := <["distance" := PNum 1]> (page 2) |};
          {| page_content := "a";
             metadata := <["distance" := PNum 3]> (page 1) |}] ∧
  ∃ docs,
    KoreanVectorStore.similarity_search (vector_store two_chunks_engine)
      "q" (2 * 3) = Ok docs ∧
    ∀ d, d ∈ [{| page_content := "b";
                 metadata := <["distance" := PNum 1]> (page 2) |};
              {| page_content := "a";
                 metadata := <["distance" := PNum 3]> (page 1) |}] →
      d ∈ docs ∨
      ((doc_key d ∉ doc_key <$> docs) ∧
       ∃ idx, documents two_chunks_engine !! idx = Some (page_content d) ∧
              metadata d
                = default ∅ (metadatas two_chunks_engine !! idx)).
Proof.
  assert (search two_chunks_engine "q" 2 true
    = Ok [{| page_content := "b";
             metadata := <["distance" := PNum 1]> (page 2) |};
          {| page_content := "a";
             metadata := <["distance" := PNum 3]> (page 1) |}])
    as Hsearch by (vm_compute; reflexivity).
  split; [exact Hsearch|].
  exact (X3_results_are_candidates one_token argsort_stable
           two_chunks_engine "q" 2 true _ Hsearch).
Defined.

(** X4 on a store whose query fails: both searches fail with the same
    exception. *)
Lemma X4_store_failure_propagates_witness :
  __init__ one_token (table_ranker [0%Q]) (failing_store ExternalError)
           (3 # 5)%Q
    = Ok (failing_engine ExternalError) ∧
  search (failing_engine ExternalError) "q" 5 true = Raise ExternalError ∧
  search_with_filter (failing_engine ExternalError) "q" 5
                     (Some [("page", PNum 1)]) = Raise ExternalError.
Proof.
  split; [reflexivity|].
  destruct (X4_store_failure_propagates one_token argsort_stable
              (failing_engine ExternalError) "q" 5 ExternalError)
    as [Hsearch Hfilter].
  split.
  - apply (Hsearch true). reflexivity.
  - apply Hfilter. reflexivity.
Defined.

(** X5: a reported distance of -1 makes the dense search fail with a
    division by zero; on the two chunks, whose distances are 1 and 3, it
    returns the rows of the store. *)
Lemma X5_dense_zero_division_witness :
  _dense_search opposite_engine "q" 6 = Raise ZeroDivisionError ∧
  ∃ dense, _dense_search two_chunks_engine "q" 6 = Ok dense ∧
           dense.*1 = [{| page_content := "b";
                          metadata := <["distance" := PNum 1]> (page 2) |};
                       {| page_content := "a";
                          metadata := <["distance" := PNum 3]> (page 1) |}].
Proof.
  split.
  - assert (KoreanVectorStore.similarity_search
              (vector_store opposite_engine) "q" 6
            = Ok [{| page_content := "a";
                     metadata := <["distance" := PNum 1]> (page 1) |};
                  {| page_content := "b";
                     metadata := <["distance" := PNum (-1)]> (page 2) |}])
      as Hdocs by (vm_compute; reflexivity).
    apply (X5_dense_zero_division opposite_engine "q" 6 _ Hdocs).
    exists {| page_content := "b";
              metadata := <["distance" := PNum (-1)]> (page 2) |}, (-1)%Q.
    split; [apply list_elem_of_further, list_elem_of_here|].
    split; reflexivity.
  - assert (KoreanVectorStore.similarity_search
              (vector_store two_chunks_engine) "q" 6
            = Ok [{| page_content := "b";
                     metadata := <["distance" := PNum 1]> (page 2) |};
                  {| page_content := "a";
                     metadata := <["distance" := PNum 3]> (page 1) |}])
      as Hdocs by (vm_compute; reflexivity).
    apply (X5_dense_zero_division two_chunks_engine "q" 6 _ Hdocs).
    intros d x Hd Hx.
    repeat (apply elem_of_cons in Hd as [->|Hd]).
    + vm_compute in Hx. injection Hx as <-. vm_compute. discriminate.
    + vm_compute in Hx. injection Hx as <-. vm_compute. discriminate.
    + by apply elem_of_nil in Hd.
Defined.

(** X6 on the tagged store: one row per chunk id is kept, the row without
    an id is dropped. *)
Lemma X6_search_with_context_witness :
  StoreReads.search_with_context tagged_store "q" 4
    = Ok [{| page_content := "a";
             metadata := <["distance" := PNum (1 # 10)]> (chunk "c1") |};
          {| page_content := "d";
             metadata := <["distance" := PNum (4 # 10)]> (chunk "c2") |}] ∧
  ∃ docs,
    KoreanVectorStore.similarity_search tagged_store "q" 4 = Ok docs ∧
    [{| page_content := "a";
        metadata := <["distance" := PNum (1 # 10)]> (chunk "c1") |};
     {| page_content := "d";
        metadata := <["distance" := PNum (4 # 10)]> (chunk "c2") |}]
      `sublist_of` docs.
Proof.
  assert (StoreReads.search_with_context tagged_store "q" 4
    = Ok [{| page_content := "a";
             metadata := <["distance" := PNum (1 # 10)]> (chunk "c1") |};
          {| page_content := "d";
             metadata := <["distance" := PNum (4 # 10)]> (chunk "c2") |}])
    as Hres by (vm_compute; reflexivity).
  split; [exact Hres|].
  destruct (X6_search_with_context tagged_store "q" 4 _ Hres)
    as (docs & Hdocs & Hsub & _).
  exists docs. by split.
Defined.

(** X7 on the two chunks: the documents are the rows of the answer. *)
Lemma X7_similarity_search_rows_witness :
  ∃ r docs,
    KoreanVectorStore.collection_query
      (collection two_chunks two_chunks_ranking) "q" 2 = Ok r ∧
    KoreanVectorStore.similarity_search
      (collection two_chunks two_chunks_ranking) "q" 2 = Ok docs ∧
    length docs = 2.
Proof.
  eexists _, _.
  assert (KoreanVectorStore.collection_query
            (collection two_chunks two_chunks_ranking) "q" 2
          = Ok {| KoreanVectorStore.q_documents := [["b"; "a"]];
                  KoreanVectorStore.q_metadatas := [[page 2; page 1]];
                  KoreanVectorStore.q_distances := Some [[1; 3]%Q] |})
    as Hr by reflexivity.
  assert (KoreanVectorStore.similarity_search
            (collection two_chunks two_chunks_ranking) "q" 2
          = Ok [{| page_content := "b";
                   metadata := <["distance" := PNum 1]> (page 2) |};
                {| page_content := "a";
                   metadata := <["distance" := PNum 3]> (page 1) |}])
    as Hdocs by (vm_compute; reflexivity).
  split; [exact Hr|]. split; [exact Hdocs|].
  destruct (X7_similarity_search_rows _ "q" 2 _ _ Hr Hdocs)
    as (docs0 & metas0 & dists0 & -> & -> & -> & Hlen & _).
  exact Hlen.
Defined.

(** X8 on the described store: three documents, two chunk types counted
    three times in all, two sections and two pages. *)
Lemma X8_statistics_witness :
  ∃ st,
    StoreReads.get_statistics described_store = Some st ∧
    StoreReads.total_documents st = 3 ∧
    sum_list (StoreReads.chunk_types st).*2 = 3 ∧
    Forall (λ kn, 1 ≤ kn.2) (StoreReads.chunk_types st).
Proof.
  eexists.
  assert (StoreReads.get_statistics described_store
          = Some {| StoreReads.total_documents := 3;
                    StoreReads.unique_sections := 2;
                    StoreReads.unique_pages := 2;
                    StoreReads.chunk_types :=
                      [(PStr "text", 2); (PStr "table", 1)];
                    StoreReads.embedding_dimension := 768 |})
    as Hst by (vm_compute; reflexivity).
  split; [exact Hst|].
  destruct (X8_statistics described_store _ Hst)
    as (data & Hdata & Htotal & Hsum & Hpos & _).
  injection Hdata as <-.
  split; [exact Htotal|]. split; [|exact Hpos].
  etrans; [exact Hsum|]. reflexivity.
Defined.

(** X10: the ids of one document are a prefix of the ids of two. *)
Lemma X10_document_ids_witness :
  length ["a"] ≤ length ["a"; "b"] ∧
  concat (Ingestion.a_ids
            <$> Ingestion.add_documents lengths ["a"] [page 1])
    `prefix_of`
  concat (Ingestion.a_ids
            <$> Ingestion.add_documents lengths ["a"; "b"]
                  [page 1; page 2]).
Proof.
  assert (length ["a"] ≤ length ["a"; "b"]) as Hlen by (simpl; lia).
  split; [exact Hlen|].
  destruct (X10_document_ids lengths ["a"] ["a"; "b"] [page 1]
              [page 1; page 2]) as (_ & _ & Hprefix).
  exact (Hprefix Hlen).
Defined.

(** X12: a query that names a key of the synonym table contains each of
    its synonyms after the expansion; a query that names no key is left as
    it is. *)
Lemma X12_enhance_query_witness :
  Text.contains "수익" (QueryText.enhance_query "매출 현황") = true ∧
  QueryText.enhance_query "hello" = "hello".
Proof.
  split.
  - destruct (X12_enhance_query QueryText.synonym_map "매출 현황")
      as (_ & _ & Hsyn).
    apply (Hsyn "매출" ["매출"; "수익"; "실적"; "매출액"; "영업수익"]).
    + apply list_elem_of_here.
    + vm_compute. reflexivity.
    + apply list_elem_of_further, list_elem_of_here.
  - destruct (X12_enhance_query QueryText.synonym_map "hello")
      as (_ & Hquiet & _).
    apply Hquiet. apply Forall_forall.
    repeat (constructor; [vm_compute; reflexivity|]). constructor.
Defined.

(** X13: a text that already carries the expansion of its abbreviation is
    left as it is. *)
Lemma X13_preprocess_text_witness :
  QueryText.preprocess_text "ESG(환경사회거버넌스) 경영"
    = "ESG(환경사회거버넌스) 경영".
Proof.
  destruct (X13_preprocess_text "ESG(환경사회거버넌스) 경영")
    as [_ Hfixed].
  apply Hfixed. apply Forall_forall.
  repeat (constructor;
          [first [left; vm_compute; reflexivity
                 |right; vm_compute; reflexivity]|]).
  constructor.
Defined.

(** X15: a text of a space and an exclamation mark has no token. *)
Lemma X15_tokenizer_coverage_witness :
  Forall (λ c, Tokenizer.is_word c = false) (Tokenizer.lower [32; 33]%N) ∧
  Tokenizer._tokenize [32; 33]%N = [].
Proof.
  assert (Forall (λ c, Tokenizer.is_word c = false)
                 (Tokenizer.lower [32; 33]%N)) as Hnone
    by (vm_compute; repeat constructor).
  split; [exact Hnone|].
  destruct (X15_tokenizer_coverage [32; 33]%N) as [_ Hempty].
  exact (Hempty Hnone).
Defined.

(** X17 on the sample pipeline: after one more question the history holds
    the earlier exchange and the new one. *)
Lemma X17_history_after_query_witness :
  GeminiRAGPipeline.memory pipeline
    = GeminiRAGPipeline.dialogue [("q0", "a0")] ∧
  GeminiRAGPipeline.get_conversation_history
    (GeminiRAGPipeline.query one_token argsort_stable reply plain_prompt
       error_text pipeline "q").2
  = [("q0", "a0"); ("q", "reply")].
Proof.
  assert (GeminiRAGPipeline.memory pipeline
          = GeminiRAGPipeline.dialogue [("q0", "a0")]) as Hmem
    by reflexivity.
  split; [exact Hmem|].
  destruct (X17_history_after_query one_token argsort_stable reply
              plain_prompt error_text pipeline "q" [("q0", "a0")] Hmem)
    as [_ Hhistory].
  etrans; [exact Hhistory|]. vm_compute. reflexivity.
Defined.

End MoreExamples.
